(** * The LaTeX extraction server: extraction and clean-up of math expressions

    A shallow embedding of the string-processing core of [server.mjs]:
    [extractMathExpressions], [cleanLatexSyntax] and the text that
    [FileHandler.writeOutputFile] builds.  The three functions are written
    with JavaScript regular expressions, so the development starts with a
    model of the fragment of the ECMAScript regular-expression semantics
    that the ten patterns of the source use (a backtracking matcher in
    continuation-passing style, as in ECMA-262, and the [lastIndex] loop of
    global matching), and with the few [String] and [Array] methods the
    code calls. *)

From Stdlib Require Import String Ascii List Arith NArith Bool Lia.
Import ListNotations.


(** ** JavaScript strings *)

(** A JavaScript string is a sequence of UTF-16 code units. *)
Definition char := N.
Definition str := list char.

(** Reading an ASCII literal as a JavaScript string. *)
Definition js (s : string) : str := map N_of_ascii (list_ascii_of_string s).

Module JSString.

(** LineTerminator of ECMA-262: LF, CR, LS, PS. *)
Definition isLineTerminator (c : char) : bool :=
  ((c =? 10) || (c =? 13) || (c =? 8232) || (c =? 8233))%N.

(** WhiteSpace of ECMA-262: TAB, VT, FF, ZWNBSP and the category Zs. *)
Definition isWhiteSpace (c : char) : bool :=
  ((c =? 9) || (c =? 11) || (c =? 12) || (c =? 32) || (c =? 160)
   || (c =? 5760) || ((8192 <=? c) && (c <=? 8202)) || (c =? 8239)
   || (c =? 8287) || (c =? 12288) || (c =? 65279))%N.

(** What [String.prototype.trim] strips and what [\s] matches. *)
Definition isSpace (c : char) : bool := isWhiteSpace c || isLineTerminator c.

Fixpoint dropWhile (f : char -> bool) (s : str) : str :=
  match s with
  | [] => []
  | c :: t => if f c then dropWhile f t else s
  end.

Fixpoint takeWhile (f : char -> bool) (s : str) : str :=
  match s with
  | [] => []
  | c :: t => if f c then c :: takeWhile f t else []
  end.

Definition trimStart (s : str) : str := dropWhile isSpace s.
Definition trimEnd (s : str) : str := rev (dropWhile isSpace (rev s)).

(** [String.prototype.trim]. *)
Definition trim (s : str) : str := trimEnd (trimStart s).

(** [Array.prototype.join] on an array of strings: the loop of ECMA-262,
    which puts the separator in front of every element but the first. *)
Fixpoint join_from (k : nat) (R : str) (l : list str) (sep : str) : str :=
  match l with
  | [] => R
  | e :: l' =>
      let R1 := if Nat.ltb 0 k then R ++ sep else R in
      join_from (S k) (R1 ++ e) l' sep
  end.

Definition join (l : list str) (sep : str) : str := join_from 0 [] l sep.

End JSString.

(** ** Regular expressions *)

Module RegExp.
Import JSString.

(** The atoms the source's patterns are made of. *)
Inductive atom : Type :=
| Lit (c : char)            (* a literal or escaped character *)
| Dot                       (* [.] *)
| OneOf (l : list char)     (* [[...]] *)
| NoneOf (l : list char)    (* [[^...]] *)
| Space.                    (* [\s] *)

(** Every quantifier in the source applies to a single atom. *)
Inductive regex : Type :=
| Atom (a : atom)
| Star (greedy : bool) (a : atom)   (* [a*] and [a*?] *)
| Seq (r1 r2 : regex)
| Alt (r1 r2 : regex)
| Group (r : regex)                 (* capture group 1 *)
| Bol                               (* [^] *)
| Eol                               (* [$] *)
| Eps.

(** A pattern literal; every pattern of the source carries the flag [g]. *)
Record pattern : Type := Pattern {
  body : regex;
  multiline : bool;   (* flag [m] *)
  dotAll : bool       (* flag [s] *)
}.

(** Matcher state: the code unit before the current position ([None] at
    index 0), the input from the current position on, and the text of
    capture group 1 ([None] while it is undefined). *)
Record state : Type := State {
  prev : option char;
  rest : str;
  cap : option str
}.

Definition cont : Type := state -> option state.

Definition mem (c : char) (l : list char) : bool := existsb (N.eqb c) l.

Section Matcher.
Variable p : pattern.

Definition atomMatches (a : atom) (c : char) : bool :=
  match a with
  | Lit d => N.eqb c d
  | Dot => if dotAll p then true else negb (isLineTerminator c)
  | OneOf l => mem c l
  | NoneOf l => negb (mem c l)
  | Space => isSpace c
  end.

Definition atLineStart (x : state) : bool :=
  match prev x with
  | None => true
  | Some c => multiline p && isLineTerminator c
  end.

Definition atLineEnd (x : state) : bool :=
  match rest x with
  | [] => true
  | c :: _ => multiline p && isLineTerminator c
  end.

(** The text between two states of one run. *)
Definition consumed (x y : state) : str :=
  firstn (length (rest x) - length (rest y)) (rest x).

(** Greedy repetition: take one more code unit first, fall back to the
    continuation. *)
Fixpoint star_greedy (a : atom) (k : cont)
         (pv : option char) (t : str) (c : option str) : option state :=
  match t with
  | d :: t' =>
      if atomMatches a d then
        match star_greedy a k (Some d) t' c with
        | Some y => Some y
        | None => k (State pv t c)
        end
      else k (State pv t c)
  | [] => k (State pv t c)
  end.

(** Lazy repetition: try the continuation first, take one more code
    unit when it fails. *)
Fixpoint star_lazy (a : atom) (k : cont)
         (pv : option char) (t : str) (c : option str) : option state :=
  match k (State pv t c) with
  | Some y => Some y
  | None =>
      match t with
      | d :: t' =>
          if atomMatches a d then star_lazy a k (Some d) t' c else None
      | [] => None
      end
  end.

(** The matcher of a regular expression, given its continuation. *)
Fixpoint m (r : regex) (k : cont) (x : state) : option state :=
  match r with
  | Atom a =>
      match rest x with
      | d :: t => if atomMatches a d then k (State (Some d) t (cap x))
                  else None
      | [] => None
      end
  | Star g a =>
      (if g then star_greedy else star_lazy) a k (prev x) (rest x) (cap x)
  | Seq r1 r2 => m r1 (m r2 k) x
  | Alt r1 r2 =>
      match m r1 k x with
      | Some y => Some y
      | None => m r2 k x
      end
  | Group r1 =>
      m r1 (fun y => k (State (prev y) (rest y) (Some (consumed x y)))) x
  | Bol => if atLineStart x then k x else None
  | Eol => if atLineEnd x then k x else None
  | Eps => k x
  end.

(** A match object: [match[0]] and [match[1]]. *)
Record matchResult : Type := Match {
  m0 : str;
  m1 : option str
}.

(** One attempt of the matcher at the position before [t]. *)
Definition matchAt (pv : option char) (t : str) : option matchResult :=
  match m (body p) (fun y => Some y) (State pv t None) with
  | Some y => Some (Match (firstn (length t - length (rest y)) t) (cap y))
  | None => None
  end.

(** The input cut by global matching into matches and the code units
    between them. *)
Inductive piece : Type :=
| Gap (c : char)
| Hit (r : matchResult).

(** The [lastIndex] loop of a global pattern, position by position:
    [skip] is the number of positions still below [lastIndex].  At a
    position that is not skipped the matcher is tried; on success
    [lastIndex] becomes the end of the match, or the next position when
    the match is empty; on failure the next position is tried. *)
Fixpoint scan (pv : option char) (t : str) (skip : nat) : list piece :=
  match skip with
  | S n =>
      match t with
      | [] => []
      | c :: t' => scan (Some c) t' n
      end
  | O =>
      match matchAt pv t with
      | Some r =>
          Hit r ::
          match t with
          | [] => []
          | c :: t' =>
              match length (m0 r) with
              | O => Gap c :: scan (Some c) t' 0
              | S n => scan (Some c) t' n
              end
          end
      | None =>
          match t with
          | [] => []
          | c :: t' => Gap c :: scan (Some c) t' 0
          end
      end
  end.

Definition hits (l : list piece) : list matchResult :=
  flat_map (fun q => match q with Hit r => [r] | Gap _ => [] end) l.

(** [String.prototype.matchAll] spread into an array. *)
Definition matchAll (s : str) : list matchResult := hits (scan None s 0).

(** What a piece of the input contributes to the result of a replacement. *)
Definition subst (repl : str) (q : piece) : str :=
  match q with
  | Hit _ => repl
  | Gap c => [c]
  end.

(** [String.prototype.replace] with a global pattern and a replacement
    string without [$]: the code units between matches are kept and
    every match becomes the replacement. *)
Definition replace (s : str) (repl : str) : str :=
  flat_map (subst repl) (scan None s 0).

End Matcher.

(** A sequence of literal characters. *)
Definition lits (l : str) : regex :=
  fold_right (fun c r => Seq (Atom (Lit c)) r) Eps l.

Definition lit (s : string) : regex := lits (js s).

(** An alternation of literal words, [w|w1|...|wn]. *)
Fixpoint altLits (w : str) (more : list str) : regex :=
  match more with
  | [] => lits w
  | w' :: more' => Alt (lits w) (altLits w' more')
  end.

Definition seq (l : list regex) : regex := fold_right Seq Eps l.

End RegExp.

(** ** The server's functions *)

Import JSString RegExp.

(** The six patterns of [extractMathExpressions]. *)

(** /\\\(.*?\\\)/g *)
Definition parenPattern : pattern :=
  Pattern (seq [lit "\("; Star false Dot; lit "\)"]) false false.

(** /\\\[(.*?)\\\]/gs *)
Definition bracketPattern : pattern :=
  Pattern (seq [lit "\["; Group (Star false Dot); lit "\]"]) false true.

(** /\$(.*?)\$/g *)
Definition dollarPattern : pattern :=
  Pattern (seq [lit "$"; Group (Star false Dot); lit "$"]) false false.

(** /\\begin{equation}(.*?)\\end{equation}/gs *)
Definition equationPattern : pattern :=
  Pattern (seq [lit "\begin{equation}"; Group (Star false Dot);
                lit "\end{equation}"]) false true.

(** /\\begin{align}(.*?)\\end{align}/gs *)
Definition alignPattern : pattern :=
  Pattern (seq [lit "\begin{align}"; Group (Star false Dot);
                lit "\end{align}"]) false true.

(** /\\begin{multline}(.*?)\\end{multline}/gs *)
Definition multlinePattern : pattern :=
  Pattern (seq [lit "\begin{multline}"; Group (Star false Dot);
                lit "\end{multline}"]) false true.

(** The array literal, in its order. *)
Definition patterns : list pattern :=
  [parenPattern; bracketPattern; dollarPattern; equationPattern;
   alignPattern; multlinePattern].

(** JavaScript truthiness of [match[i]]: defined and not the empty string. *)
Definition truthy (v : option str) : bool :=
  match v with
  | Some (_ :: _) => true
  | _ => false
  end.

(** The body of the [forEach] callback: what one match pushes. *)
Definition push_match (mathExpressions : list str) (mt : matchResult)
  : list str :=
  match m1 mt with
  | Some (c :: g) => mathExpressions ++ [c :: g]
  | _ => if truthy (Some (m0 mt)) then mathExpressions ++ [m0 mt]
         else mathExpressions
  end.

(** [extractMathExpressions]: the loop over the patterns, each pass pushing
    onto the one array. *)
Definition extractMathExpressions (latexContent : str) : list str :=
  fold_left
    (fun mathExpressions pat =>
       fold_left push_match (matchAll pat latexContent) mathExpressions)
    patterns [].

(** /%.*$/gm *)
Definition commentPattern : pattern :=
  Pattern (seq [lit "%"; Star true Dot; Eol]) true false.

(** /\\(label|nonumber|tag|qquad|quad|vspace|hspace){[^}]*}/g *)
Definition commandNames : list str :=
  map js ["label"; "nonumber"; "tag"; "qquad"; "quad"; "vspace"; "hspace"]%string.

Definition commandPattern : pattern :=
  Pattern
    (seq [lit "\";
          Group (altLits (js "label")
                   (map js ["nonumber"; "tag"; "qquad"; "quad"; "vspace";
                            "hspace"]%string));
          lit "{"; Star true (NoneOf (js "}")); lit "}"])
    false false.

(** /^\s*[\r\n]/gm *)
Definition blankLinePattern : pattern :=
  Pattern (seq [Bol; Star true Space; Atom (OneOf [13; 10]%N)]) true false.

(** /\\/g *)
Definition backslashPattern : pattern :=
  Pattern (lit "\") false false.

(** The four steps of [cleanLatexSyntax], one per method call. *)
Definition stripComments (s : str) : str := replace commentPattern s [].
Definition removeCommands (s : str) : str := replace commandPattern s [].
Definition removeBlankLines (s : str) : str := replace blankLinePattern s [].

Definition cleanLatexSyntax (latexExpression : str) : str :=
  trim (removeBlankLines (removeCommands (stripComments latexExpression))).

(** The replacement string of [writeOutputFile], the literal ["\\\\"]: two
    backslashes. *)
Definition escapeBackslashes (expr : str) : str :=
  replace backslashPattern expr (js "\\").

(** The text [writeOutputFile] writes. *)
Definition writeOutputFile (mathExpressions : list str) : str :=
  join (map (fun expr => trim (escapeBackslashes expr)) mathExpressions)
       [10; 10]%N.


(** ** Calling the functions on an arbitrary JavaScript value *)

(** The primitive values an argument can be; a number is stood for by an
    integer, the functions never look at it. *)
Inductive value : Type :=
| VUndefined
| VNull
| VBoolean (b : bool)
| VNumber (n : N)
| VString (s : str).

(** A call either returns or throws an error, named by its class. *)
Inductive completion (A : Type) : Type :=
| Return (a : A)
| Throw (errorName : string).

Arguments Return {A} a.
Arguments Throw {A} errorName.

Definition bind {A B : Type} (c : completion A) (f : A -> completion B)
  : completion B :=
  match c with
  | Return a => f a
  | Throw e => Throw e
  end.

(** [v.method(...)] for a method of [String.prototype]: [undefined] and
    [null] have no properties, a boolean or a number has no such method;
    the call throws a [TypeError] in both cases. *)
Definition invoke {A : Type} (v : value) (method : str -> A) : completion A :=
  match v with
  | VString s => Return (method s)
  | _ => Throw "TypeError"
  end.

(** [extractMathExpressions] on any value: the first statement that touches
    the argument is [latexContent.matchAll(pattern)] in the loop. *)
Definition extractMathExpressions_value (latexContent : value)
  : completion (list str) :=
  fold_left
    (fun acc pat =>
       bind acc (fun mathExpressions =>
       bind (invoke latexContent (matchAll pat)) (fun matches =>
       Return (fold_left push_match matches mathExpressions))))
    patterns (Return []).

(** ** Vocabulary of the specification *)

(** What one match contributes to the result. *)
Definition pushed (mt : matchResult) : list str := push_match [] mt.

(** The result of one pass: the matches of one pattern, pushed in order. *)
Definition pass (pat : pattern) (s : str) : list str :=
  flat_map pushed (matchAll pat s).

(** A delimiter convention: its opening and closing tokens, whether the
    inner text is captured, and whether it runs across line boundaries. *)
Record convention : Type := Convention {
  opening : str;
  closing : str;
  captures : bool;
  multiLine : bool
}.

Definition conventions : list convention :=
  [ Convention (js "\(") (js "\)") false false;
    Convention (js "\[") (js "\]") true true;
    Convention (js "$") (js "$") true false;
    Convention (js "\begin{equation}") (js "\end{equation}") true true;
    Convention (js "\begin{align}") (js "\end{align}") true true;
    Convention (js "\begin{multline}") (js "\end{multline}") true true ].

Definition conventionPattern (cv : convention) : pattern :=
  Pattern (seq [lits (opening cv);
                if captures cv then Group (Star false Dot)
                else Star false Dot;
                lits (closing cv)])
          false (multiLine cv).

Definition sameLine (inner : str) : Prop :=
  forallb (fun c => negb (isLineTerminator c)) inner = true.

(** [inner], delimited by the convention's tokens, occurs in [s]. *)
Definition delimitedIn (cv : convention) (inner s : str) : Prop :=
  exists a b : str,
    s = a ++ opening cv ++ inner ++ closing cv ++ b /\
    (multiLine cv = false -> sameLine inner).

(** The convention matches somewhere in [s]. *)
Definition conventionMatches (cv : convention) (s : str) : Prop :=
  exists inner : str, delimitedIn cv inner s.

(** The lines of a string, each with the line terminator that ends it. *)
Fixpoint splitLines (s : str) : list (str * option char) :=
  match s with
  | [] => [([], None)]
  | c :: t =>
      if isLineTerminator c then ([], Some c) :: splitLines t
      else match splitLines t with
           | (l, e) :: r => (c :: l, e) :: r
           | [] => [([c], None)]
           end
  end.

Definition terminator (e : option char) : str :=
  match e with
  | Some c => [c]
  | None => []
  end.

(** Rewriting every line by [f], line terminators kept. *)
Definition perLine (f : str -> str) (s : str) : str :=
  flat_map (fun le => f (fst le) ++ terminator (snd le)) (splitLines s).

Definition percent : char := 37%N.
Definition backslash : char := 92%N.
Definition openBrace : char := 123%N.
Definition closeBrace : char := 125%N.

(** The part of a line before its first [%]. *)
Definition beforePercent (l : str) : str :=
  takeWhile (fun c => negb (N.eqb c percent)) l.

(** The part of a line before its first [%] that no backslash precedes. *)
Fixpoint beforeUnescapedPercent (escaped : bool) (l : str) : str :=
  match l with
  | [] => []
  | c :: t =>
      if N.eqb c percent && negb escaped then []
      else c :: beforeUnescapedPercent (N.eqb c backslash) t
  end.

(** A command with one brace-delimited argument, [\name{arg}]. *)
Definition braceCommand (name arg : str) : str :=
  [backslash] ++ name ++ [openBrace] ++ arg ++ [closeBrace].

Definition braceFree (arg : str) : Prop :=
  forallb (fun c => negb (N.eqb c closeBrace)) arg = true.

(** Every backslash doubled. *)
Definition doubleBackslashes (s : str) : str :=
  flat_map (fun c => if N.eqb c backslash then [backslash; backslash] else [c])
           s.

(** The elements, with the separator between consecutive ones. *)
Fixpoint joinWith (sep : str) (l : list str) : str :=
  match l with
  | [] => []
  | [e] => e
  | e :: l' => e ++ sep ++ joinWith sep l'
  end.

(** ** Auxiliary functions of the proofs *)

(** The code unit before the position reached after reading [u]. *)
Definition prevAfter (pv : option char) (u : str) : option char :=
  fold_left (fun _ c => Some c) u pv.

(** [t] without its prefix [l], when it has it. *)
Fixpoint stripPrefix (l t : str) : option str :=
  match l with
  | [] => Some t
  | c :: l' =>
      match t with
      | d :: t' => if N.eqb d c then stripPrefix l' t' else None
      | [] => None
      end
  end.

(** The first alternative that succeeds. *)
Fixpoint firstSome {A B : Type} (l : list A) (f : A -> option B) : option B :=
  match l with
  | [] => None
  | a :: l' =>
      match f a with
      | Some b => Some b
      | None => firstSome l' f
      end
  end.

Definition notTerminator (c : char) : bool := negb (isLineTerminator c).
Definition notClose (c : char) : bool := negb (N.eqb c closeBrace).

(** What is left of [t] after a command with a brace argument at its head:
    the backslash, the first name of the alternation that is followed by
    an opening brace and, further on, a closing brace, and everything up to
    the first closing brace. *)
Definition commandEnd (t : str) : option str :=
  match stripPrefix [backslash] t with
  | None => None
  | Some t1 =>
      firstSome commandNames
        (fun w =>
           match stripPrefix w t1 with
           | None => None
           | Some t2 =>
               match stripPrefix [openBrace] t2 with
               | None => None
               | Some t3 =>
                   match dropWhile notClose t3 with
                   | _ :: t4 => Some t4
                   | [] => None
                   end
               end
           end)
  end.

(** The class [[\r\n]]. *)
Definition isBreak (c : char) : bool := mem c [13; 10]%N.

(** What is left of [t] after the longest run of white space at its head
    that ends with a carriage return or a line feed. *)
Fixpoint blankEnd (t : str) : option str :=
  match t with
  | [] => None
  | d :: t' =>
      if isSpace d then
        match blankEnd t' with
        | Some r => Some r
        | None => if isBreak d then Some t' else None
        end
      else None
  end.

(** A position is the start of a line. *)
Definition lineStart (pv : option char) : bool :=
  match pv with
  | None => true
  | Some c => isLineTerminator c
  end.

Definition isNone {A : Type} (o : option A) : bool :=
  match o with
  | None => true
  | Some _ => false
  end.

(** No line of [t] starts with white space that runs over a line break:
    the blank-line pattern matches nowhere. *)
Fixpoint stable (pv : option char) (t : str) : bool :=
  (negb (lineStart pv) || isNone (blankEnd t)) &&
  match t with
  | [] => true
  | c :: t' => stable (Some c) t'
  end.

(** The matches of a pattern deleted, from a position inside the input. *)
Definition eraseFrom (p : pattern) (pv : option char) (t : str) : str :=
  flat_map (subst []) (scan p pv t 0).

(** ** The data flow of [FileHandler.processFile] *)

(** The text [processFile] writes, given the text [readLatexFile] returned:
    the expressions are extracted, each one is cleaned, and the cleaned
    ones go to [writeOutputFile]. *)
Definition processFile (latexContent : str) : str :=
  let mathExpressions := extractMathExpressions latexContent in
  let cleanedExpressions := map cleanLatexSyntax mathExpressions in
  writeOutputFile cleanedExpressions.

(** The command line [convertWordToLatex] hands to [exec], the template
    literal with both file names between double quotes. *)
Definition quote : char := 34%N.

Definition pandocCommand (wordFile latexFile : str) : str :=
  js "pandoc " ++ [quote] ++ wordFile ++ [quote] ++ js " -o " ++
  [quote] ++ latexFile ++ [quote] ++ js " --to=latex".

(** ** Further vocabulary *)

Definition dollar : char := 36%N.

(** The first code unit of a token. *)
Definition tokenHead (tok : str) : char := hd 0%N tok.

(** What a match of a convention around [inner] pushes. *)
Definition delimitedResult (cv : convention) (inner : str) : str :=
  if captures cv
  then match inner with
       | [] => opening cv ++ inner ++ closing cv
       | _ :: _ => inner
       end
  else opening cv ++ inner ++ closing cv.

(** No two line feeds in a row, and no line feed at the end: the
    separator of [writeOutputFile] cannot be found in or across the end of
    such an element. *)
Fixpoint separable (e : str) : bool :=
  match e with
  | [] => true
  | c :: t =>
      match t with
      | [] => negb (N.eqb c 10)
      | d :: _ => negb (N.eqb c 10 && N.eqb d 10) && separable t
      end
  end.

(** What follows an element in a joined text: nothing, or a separator. *)
Definition afterElement (R : str) : Prop :=
  R = [] \/ exists R0 : str, R = 10%N :: 10%N :: R0.

(** [u] is [v] with some code units deleted. *)
Inductive Subseq : str -> str -> Prop :=
| Subseq_nil : Subseq [] []
| Subseq_keep (c : char) (u v : str) : Subseq u v -> Subseq (c :: u) (c :: v)
| Subseq_drop (c : char) (u v : str) : Subseq u v -> Subseq u (c :: v).

(** The expression has no [^]. *)
Fixpoint noBol (r : regex) : bool :=
  match r with
  | Bol => false
  | Seq r1 r2 | Alt r1 r2 => noBol r1 && noBol r2
  | Group r1 => noBol r1
  | _ => true
  end.

(** Two matcher states that differ at most in the code unit before the
    position, and two results that do. *)
Definition sameFrom (x x' : state) : Prop :=
  rest x = rest x' /\ cap x = cap x'.

Definition sameResult (o o' : option state) : Prop :=
  match o, o' with
  | Some y, Some y' => sameFrom y y'
  | None, None => True
  | _, _ => False
  end.

(** ** Vocabulary for trimming and for command removal *)

(** [t] is [s] without its leading and trailing white space. *)
Definition Trimmed (s t : str) : Prop :=
  exists a b : str,
    s = a ++ t ++ b /\
    forallb isSpace a = true /\ forallb isSpace b = true /\
    (forall c t', t = c :: t' -> isSpace c = false) /\
    (forall t' c, t = t' ++ [c] -> isSpace c = false).

(** Nowhere in [s] is one of the command names directly followed by an
    opening brace. *)
Definition noBraceForm (s : str) : Prop :=
  forall a name b : str,
    In name commandNames ->
    s <> a ++ [backslash] ++ name ++ [openBrace] ++ b.

(** The same, decided: a command name with an opening brace at the head of
    [t], or somewhere in [s]. *)
Definition braceFormAt (t : str) : bool :=
  match stripPrefix [backslash] t with
  | Some t1 =>
      existsb (fun w => negb (isNone (stripPrefix (w ++ [openBrace]) t1)))
              commandNames
  | None => false
  end.

Fixpoint hasBraceForm (s : str) : bool :=
  braceFormAt s ||
  match s with
  | [] => false
  | _ :: t => hasBraceForm t
  end.

(** A deleted command and the text kept before it. *)
Record deletion : Type := Deletion {
  before : str;
  cmdName : str;
  cmdArg : str
}.

(** A text cut into kept parts and deleted commands, and what is left of
    it without the commands. *)
Definition withCommands (l : list deletion) (tail : str) : str :=
  flat_map (fun d => before d ++ braceCommand (cmdName d) (cmdArg d)) l ++ tail.

Definition withoutCommands (l : list deletion) (tail : str) : str :=
  flat_map before l ++ tail.

(** ** Facts about lists and strings *)

(** Case analysis on membership in a list that is written out: [tac]
    closes the goal for each member in turn. *)
Ltac each_member H tac :=
  simpl in H; repeat (destruct H as [<-|H]; [tac|]); destruct H.

Lemma firstn_app_length (a b : str) :
  firstn (length (a ++ b) - length b) (a ++ b) = a.
Proof.
  rewrite length_app.
  replace (length a + length b - length b) with (length a + 0) by lia.
  rewrite firstn_app_2. simpl. apply app_nil_r.
Qed.

Lemma flat_map_nil {A B : Type} (f : A -> list B) (l : list A) :
  (forall a, In a l -> f a = []) -> flat_map f l = [].
Proof.
  induction l as [|a l IH]; intros H; simpl; auto.
  rewrite (H a) by (left; reflexivity). apply IH.
  intros a' Ha'. apply H. right. exact Ha'.
Qed.

Lemma skipn_app_length (a b : str) : skipn (length a) (a ++ b) = b.
Proof.
  induction a as [|c a IH]; simpl; auto.
Qed.

Lemma prevAfter_app (pv : option char) (u v : str) :
  prevAfter pv (u ++ v) = prevAfter (prevAfter pv u) v.
Proof.
  unfold prevAfter. apply fold_left_app.
Qed.

Lemma stripPrefix_Some (l t t' : str) :
  stripPrefix l t = Some t' <-> t = l ++ t'.
Proof.
  revert t. induction l as [|c l IH]; intros t; simpl.
  - split; intros H; [injection H as ->|subst]; reflexivity.
  - destruct t as [|d t]; [split; discriminate|].
    destruct (N.eqb_spec d c) as [->|Hne].
    + rewrite IH. split; intros H; [subst; reflexivity|].
      injection H as ->. reflexivity.
    + split; [discriminate|]. intros H. injection H as H _. contradiction.
Qed.

Lemma takeWhile_dropWhile (f : char -> bool) (s : str) :
  takeWhile f s ++ dropWhile f s = s.
Proof.
  induction s as [|c s IH]; simpl; auto.
  destruct (f c); simpl; [rewrite IH|]; reflexivity.
Qed.

Lemma skipn_takeWhile (f : char -> bool) (s : str) :
  skipn (length (takeWhile f s)) s = dropWhile f s.
Proof.
  induction s as [|c s IH]; simpl; auto.
  destruct (f c); simpl; auto.
Qed.

Lemma dropWhile_length (f : char -> bool) (s : str) :
  length (dropWhile f s) <= length s.
Proof.
  induction s as [|c s IH]; simpl; auto.
  destruct (f c); simpl; lia.
Qed.

Lemma takeWhile_all (f : char -> bool) (s : str) :
  forallb f (takeWhile f s) = true.
Proof.
  induction s as [|c s IH]; simpl; auto.
  destruct (f c) eqn:E; simpl; auto. rewrite E. exact IH.
Qed.

Lemma dropWhile_app_all (f : char -> bool) (u v : str) :
  forallb f u = true -> dropWhile f (u ++ v) = dropWhile f v.
Proof.
  induction u as [|c u IH]; simpl; auto.
  intros H. apply andb_prop in H as [Hc Hu]. rewrite Hc, IH; auto.
Qed.

Lemma firstSome_In {A B : Type} (l : list A) (f : A -> option B) (b : B) :
  firstSome l f = Some b -> exists a, In a l /\ f a = Some b.
Proof.
  induction l as [|a l IH]; simpl; [discriminate|].
  destruct (f a) as [b'|] eqn:E.
  - intros H. injection H as ->. eauto.
  - intros H. apply IH in H as (a' & Hin & H). eauto.
Qed.

Lemma firstSome_map {A B C : Type} (h : B -> C) (l : list A)
      (f : A -> option B) (g : A -> option C) :
  (forall a, option_map h (f a) = g a) ->
  option_map h (firstSome l f) = firstSome l g.
Proof.
  intros Hfg. induction l as [|a l IH]; simpl; auto.
  rewrite <- Hfg. destruct (f a); simpl; auto.
Qed.

(** ** Facts about the matcher *)

Section MatcherFacts.
Variable p : pattern.

(** A literal word matches exactly when it is a prefix of the input. *)
Lemma m_lits (l : str) (k : cont) (x : state) :
  m p (lits l) k x =
  match stripPrefix l (rest x) with
  | Some t' => k (State (prevAfter (prev x) l) t' (cap x))
  | None => None
  end.
Proof.
  revert x. induction l as [|c l IH]; intros x.
  - destruct x; reflexivity.
  - change (lits (c :: l)) with (Seq (Atom (Lit c)) (lits l)).
    simpl m. destruct (rest x) as [|d t]; simpl; auto.
    destruct (N.eqb_spec d c) as [->|Hne]; auto.
    rewrite IH. reflexivity.
Qed.

(** An alternation of words tries them in order, each with the whole
    continuation. *)
Lemma m_altLits (w : str) (more : list str) (k : cont) (x : state) :
  m p (altLits w more) k x =
  firstSome (w :: more)
    (fun v => match stripPrefix v (rest x) with
              | Some t' => k (State (prevAfter (prev x) v) t' (cap x))
              | None => None
              end).
Proof.
  revert w. induction more as [|w' more IH]; intros w.
  - simpl altLits. rewrite m_lits. simpl.
    destruct (stripPrefix w (rest x)); auto. destruct (k _); auto.
  - simpl altLits. simpl m. rewrite m_lits, IH. reflexivity.
Qed.

(** What a successful lazy repetition has read. *)
Lemma star_lazy_sound (a : atom) (k : cont) (pv : option char) (t : str)
      (c : option str) (y : state) :
  star_lazy p a k pv t c = Some y ->
  exists u t', t = u ++ t' /\ forallb (atomMatches p a) u = true /\
               k (State (prevAfter pv u) t' c) = Some y.
Proof.
  revert pv. induction t as [|d t IH]; intros pv; simpl.
  - destruct (k (State pv [] c)) eqn:E; [|discriminate].
    intros H. injection H as ->. exists [], []. auto.
  - destruct (k (State pv (d :: t) c)) eqn:E.
    + intros H. injection H as ->. exists [], (d :: t). auto.
    + destruct (atomMatches p a d) eqn:Ea; [|discriminate].
      intros H. apply IH in H as (u & t' & -> & Hu & Hk).
      exists (d :: u), t'. simpl. rewrite Ea. auto.
Qed.

(** Every match of a global scan comes from an attempt at some position. *)
Lemma scan_hit (r : matchResult) (t : str) :
  forall (pv : option char) (n : nat),
    In (Hit r) (scan p pv t n) ->
    exists a pv' t', t = a ++ t' /\ matchAt p pv' t' = Some r.
Proof.
  assert (Hcons : forall (c : char) (t0 : str),
             (exists a pv' t', t0 = a ++ t' /\ matchAt p pv' t' = Some r) ->
             exists a pv' t', c :: t0 = a ++ t' /\ matchAt p pv' t' = Some r).
  { intros c t0 (a & pv' & t' & -> & H). exists (c :: a), pv', t'. auto. }
  induction t as [|c t IH]; intros pv n; destruct n as [|n]; simpl.
  - destruct (matchAt p pv []) as [r'|] eqn:E; simpl; [|tauto].
    intros [H|[]]. injection H as ->. exists [], pv, []. auto.
  - tauto.
  - destruct (matchAt p pv (c :: t)) as [r'|] eqn:E; simpl.
    + intros [H|H].
      * injection H as ->. exists [], pv, (c :: t). auto.
      * destruct (length (m0 r')); [destruct H as [H|H]; [discriminate|]|];
          apply Hcons; eapply IH; eauto.
    + intros [H|H]; [discriminate|]. apply Hcons; eapply IH; eauto.
  - intros H. apply Hcons; eapply IH; eauto.
Qed.

Lemma In_hits (r : matchResult) (l : list piece) :
  In r (hits l) <-> In (Hit r) l.
Proof.
  unfold hits. rewrite in_flat_map. split.
  - intros ([c|r'] & Hin & H); simpl in H; [tauto|].
    destruct H as [->|[]]. exact Hin.
  - intros H. exists (Hit r). simpl. auto.
Qed.

Lemma matchAll_hit (r : matchResult) (s : str) :
  In r (matchAll p s) ->
  exists a pv t, s = a ++ t /\ matchAt p pv t = Some r.
Proof.
  unfold matchAll. rewrite In_hits. apply scan_hit.
Qed.

(** Positions below [lastIndex] are passed over. *)
Lemma scan_skip (n : nat) :
  forall (pv : option char) (t : str),
    n <= length t ->
    scan p pv t n = scan p (prevAfter pv (firstn n t)) (skipn n t) 0.
Proof.
  induction n as [|n IH]; intros pv t Hn.
  - reflexivity.
  - destruct t as [|c t]; simpl in Hn; [lia|].
    simpl scan at 1. rewrite IH by lia. reflexivity.
Qed.

(** The text of a match is a prefix of the input it was tried on. *)
Lemma matchAt_prefix (pv : option char) (t : str) (r : matchResult) :
  matchAt p pv t = Some r ->
  exists n, n <= length t /\ m0 r = firstn n t /\ length (m0 r) = n.
Proof.
  unfold matchAt. destruct (m p (body p) _ _) as [y|]; [|discriminate].
  intros H. injection H as <-. cbn [m0].
  exists (length t - length (rest y)). split; [lia|]. split; auto.
  rewrite length_firstn. lia.
Qed.

Lemma scan_cons_0 (pv : option char) (c : char) (t : str) :
  scan p pv (c :: t) 0 =
  match matchAt p pv (c :: t) with
  | Some r =>
      Hit r :: match length (m0 r) with
               | O => Gap c :: scan p (Some c) t 0
               | S n => scan p (Some c) t n
               end
  | None => Gap c :: scan p (Some c) t 0
  end.
Proof.
  reflexivity.
Qed.

Lemma scan_nil_0 (pv : option char) :
  scan p pv [] 0 =
  match matchAt p pv [] with
  | Some r => [Hit r]
  | None => []
  end.
Proof.
  reflexivity.
Qed.

(** One step of a global replacement. *)
Lemma replace_step (repl : str) (pv : option char) (t : str) :
  flat_map (subst repl) (scan p pv t 0) =
  match matchAt p pv t with
  | Some r =>
      repl ++
      match m0 r with
      | [] =>
          match t with
          | [] => []
          | c :: t' => c :: flat_map (subst repl) (scan p (Some c) t' 0)
          end
      | _ :: _ =>
          flat_map (subst repl)
                   (scan p (prevAfter pv (m0 r)) (skipn (length (m0 r)) t) 0)
      end
  | None =>
      match t with
      | [] => []
      | c :: t' => c :: flat_map (subst repl) (scan p (Some c) t' 0)
      end
  end.
Proof.
  destruct t as [|c t].
  - simpl scan. destruct (matchAt p pv []) as [r|] eqn:E; simpl; auto.
    f_equal. apply matchAt_prefix in E as (n & _ & E & _).
    rewrite E. destruct n; reflexivity.
  - rewrite scan_cons_0.
    destruct (matchAt p pv (c :: t)) as [r|] eqn:E; [|reflexivity].
    apply matchAt_prefix in E as (n & Hn & E & El).
    rewrite El, E. cbn [flat_map subst]. f_equal.
    destruct n as [|n]; [reflexivity|].
    simpl in Hn. cbn [firstn]. rewrite scan_skip by lia.
    reflexivity.
Qed.

(** Replacing matches by nothing never adds a code unit. *)
Lemma erase_length (t : str) :
  forall (pv : option char) (n : nat),
    length (flat_map (subst []) (scan p pv t n)) <= length t.
Proof.
  induction t as [|c t IH]; intros pv n; destruct n as [|n]; simpl.
  - destruct (matchAt p pv []); simpl; lia.
  - lia.
  - destruct (matchAt p pv (c :: t)) as [r|]; simpl.
    + destruct (length (m0 r)) as [|n']; simpl.
      * specialize (IH (Some c) 0). lia.
      * specialize (IH (Some c) n'). lia.
    + specialize (IH (Some c) 0). lia.
  - specialize (IH (Some c) n). lia.
Qed.

Lemma erase_In (d : char) (t : str) :
  forall (pv : option char) (n : nat),
    In d (flat_map (subst []) (scan p pv t n)) -> In d t.
Proof.
  induction t as [|c t IH]; intros pv n; destruct n as [|n]; simpl.
  - destruct (matchAt p pv []); simpl; tauto.
  - tauto.
  - destruct (matchAt p pv (c :: t)) as [r|]; simpl.
    + destruct (length (m0 r)); simpl.
      * intros [H|H]; eauto.
      * eauto.
    + intros [H|H]; eauto.
  - eauto.
Qed.

End MatcherFacts.

(** ** The six extraction patterns *)

Lemma patterns_conventions : patterns = map conventionPattern conventions.
Proof.
  reflexivity.
Qed.

(** A match of a convention's pattern is an opening token, an inner text
    and a closing token; [match[1]] is the inner text when the pattern
    captures it. *)
Lemma convention_sound (cv : convention) (pv : option char) (t : str)
      (r : matchResult) :
  matchAt (conventionPattern cv) pv t = Some r ->
  exists inner t',
    t = opening cv ++ inner ++ closing cv ++ t' /\
    m0 r = opening cv ++ inner ++ closing cv /\
    m1 r = (if captures cv then Some inner else None) /\
    (multiLine cv = false -> sameLine inner).
Proof.
  unfold matchAt.
  destruct (m (conventionPattern cv) (body (conventionPattern cv)) _ _)
    as [y|] eqn:E; [|discriminate].
  intros H. injection H as <-.
  unfold conventionPattern in E at 2. cbn [body seq fold_right m] in E.
  rewrite m_lits in E. cbn [rest prev cap] in E.
  destruct (stripPrefix (opening cv) t) as [t1|] eqn:E1; [|discriminate].
  apply stripPrefix_Some in E1. subst t.
  assert (Hline : forall u,
             forallb (atomMatches (conventionPattern cv) Dot) u = true ->
             multiLine cv = false -> sameLine u).
  { intros u Hu Hml. unfold sameLine. rewrite <- Hu.
    clear Hu. induction u as [|c u IHu]; simpl; auto.
    rewrite Hml, IHu. reflexivity. }
  destruct (captures cv); cbn [m prev rest cap] in E;
    apply star_lazy_sound in E as (u & t' & -> & Hu & Hk);
    rewrite m_lits in Hk; cbn [rest prev cap m] in Hk;
    destruct (stripPrefix (closing cv) t') as [t2|] eqn:E2; try discriminate;
    apply stripPrefix_Some in E2; subst t'; injection Hk as <-;
    cbn [rest cap]; exists u, t2.
  - unfold consumed. cbn [rest].
    replace (opening cv ++ u ++ closing cv ++ t2)
      with ((opening cv ++ u ++ closing cv) ++ t2)
      by (rewrite <- !app_assoc; reflexivity).
    rewrite (firstn_app_length u (closing cv ++ t2)).
    rewrite firstn_app_length. rewrite <- !app_assoc. auto.
  - replace (opening cv ++ u ++ closing cv ++ t2)
      with ((opening cv ++ u ++ closing cv) ++ t2)
      by (rewrite <- !app_assoc; reflexivity).
    rewrite firstn_app_length. rewrite <- !app_assoc. auto.
Qed.

(** The opening token of every convention has a first character. *)
Lemma opening_nonempty (cv : convention) :
  In cv conventions -> opening cv <> [].
Proof.
  intros H. each_member H ltac:(cbv; discriminate).
Qed.

(** The text of every match of the six passes is not empty. *)
Lemma match_nonempty (pat : pattern) (s : str) (mt : matchResult) :
  In pat patterns -> In mt (matchAll pat s) -> m0 mt <> [].
Proof.
  rewrite patterns_conventions, in_map_iff. intros (cv & <- & Hcv) Hmt.
  apply matchAll_hit in Hmt as (a & pv & t & _ & Hm).
  apply convention_sound in Hm as (inner & t' & _ & -> & _).
  apply opening_nonempty in Hcv.
  destruct (opening cv); [contradiction|discriminate].
Qed.

(** ** The loop of [extractMathExpressions] *)

Lemma push_match_pushed (acc : list str) (mt : matchResult) :
  push_match acc mt = acc ++ pushed mt.
Proof.
  unfold pushed, push_match.
  destruct (m1 mt) as [[|c g]|]; simpl; auto;
    destruct (m0 mt); simpl; auto using app_nil_r.
Qed.

Lemma forEach_pushed (ms : list matchResult) (acc : list str) :
  fold_left push_match ms acc = acc ++ flat_map pushed ms.
Proof.
  revert acc. induction ms as [|mt ms IH]; intros acc; simpl.
  - symmetry. apply app_nil_r.
  - rewrite IH, push_match_pushed, <- app_assoc. reflexivity.
Qed.

Lemma passes_fold (s : str) (ps : list pattern) (acc : list str) :
  fold_left (fun arr pat => fold_left push_match (matchAll pat s) arr) ps acc
  = acc ++ flat_map (fun pat => pass pat s) ps.
Proof.
  revert acc. induction ps as [|pat ps IH]; intros acc; simpl.
  - symmetry. apply app_nil_r.
  - rewrite IH, forEach_pushed, <- app_assoc. reflexivity.
Qed.

Lemma extract_passes (s : str) :
  extractMathExpressions s = flat_map (fun pat => pass pat s) patterns.
Proof.
  unfold extractMathExpressions. apply passes_fold.
Qed.

Lemma pushed_nonempty (mt : matchResult) (e : str) :
  In e (pushed mt) -> e <> [].
Proof.
  unfold pushed, push_match.
  destruct (m1 mt) as [[|c g]|]; simpl.
  - destruct (m0 mt); simpl; [tauto|]. intros [<-|[]]. discriminate.
  - intros [<-|[]]. discriminate.
  - destruct (m0 mt); simpl; [tauto|]. intros [<-|[]]. discriminate.
Qed.

Lemma conventionMatches_delimiter (cv : convention) (s : str) :
  In cv conventions -> conventionMatches cv s ->
  In backslash s \/ In 36%N s.
Proof.
  intros Hcv (inner & a & b & -> & _).
  each_member Hcv
    ltac:(try (left; apply in_or_app; right; left; reflexivity);
          right; apply in_or_app; right; left; reflexivity).
Qed.

Lemma matchAll_convention (cv : convention) (s : str) (mt : matchResult) :
  In mt (matchAll (conventionPattern cv) s) ->
  exists inner,
    delimitedIn cv inner s /\
    m0 mt = opening cv ++ inner ++ closing cv /\
    m1 mt = (if captures cv then Some inner else None).
Proof.
  intros H. apply matchAll_hit in H as (a & pv & t & -> & Hm).
  apply convention_sound in Hm as (inner & t' & -> & H0 & H1 & Hl).
  exists inner. split; [exists a, t'|]; auto.
Qed.

(** ** The values the functions are called on *)

Lemma extract_value_fold (s : str) (ps : list pattern) (acc : list str) :
  fold_left
    (fun c pat =>
       bind c (fun mathExpressions =>
       bind (invoke (VString s) (matchAll pat)) (fun matches =>
       Return (fold_left push_match matches mathExpressions))))
    ps (Return acc)
  = Return (fold_left
              (fun arr pat => fold_left push_match (matchAll pat s) arr)
              ps acc).
Proof.
  revert acc. induction ps as [|pat ps IH]; intros acc; simpl; auto.
Qed.

Lemma extract_value_string (s : str) :
  extractMathExpressions_value (VString s) = Return (extractMathExpressions s).
Proof.
  apply extract_value_fold.
Qed.

(** ** Trimming and joining *)

Lemma trim_length (s : str) : length (trim s) <= length s.
Proof.
  unfold trim, trimEnd, trimStart. rewrite length_rev.
  etransitivity; [apply dropWhile_length|]. rewrite length_rev.
  apply dropWhile_length.
Qed.

Lemma join_from_S (sep : str) (l : list str) :
  forall (k : nat) (R : str),
    join_from (S k) R l sep = R ++ flat_map (fun e => sep ++ e) l.
Proof.
  induction l as [|e l IH]; intros k R; simpl.
  - symmetry. apply app_nil_r.
  - rewrite IH, <- !app_assoc. reflexivity.
Qed.

Lemma joinWith_cons (sep e : str) (l : list str) :
  joinWith sep (e :: l) = e ++ flat_map (fun e' => sep ++ e') l.
Proof.
  revert e. induction l as [|e' l IH]; intros e.
  - simpl. symmetry. apply app_nil_r.
  - change (joinWith sep (e :: e' :: l)) with (e ++ sep ++ joinWith sep (e' :: l)).
    rewrite IH. simpl. rewrite <- app_assoc. reflexivity.
Qed.

Lemma join_joinWith (l : list str) (sep : str) : join l sep = joinWith sep l.
Proof.
  destruct l as [|e l]; [reflexivity|].
  unfold join. simpl join_from. rewrite join_from_S, joinWith_cons.
  reflexivity.
Qed.

(** ** The backslash pattern *)

Lemma matchAt_backslash (pv : option char) (t : str) :
  matchAt backslashPattern pv t =
  match t with
  | d :: _ => if N.eqb d backslash then Some (Match [backslash] None) else None
  | [] => None
  end.
Proof.
  unfold matchAt. change (body backslashPattern) with (lits [backslash]).
  rewrite m_lits. cbn [rest prev cap stripPrefix].
  destruct t as [|d t]; auto.
  destruct (N.eqb_spec d backslash) as [->|Hne]; auto.
  cbn [rest cap length].
  replace (S (length t) - length t) with 1 by lia. reflexivity.
Qed.

Lemma escape_double (s : str) : escapeBackslashes s = doubleBackslashes s.
Proof.
  unfold escapeBackslashes, replace. generalize (@None char).
  induction s as [|c s IH]; intros pv.
  - rewrite scan_nil_0, matchAt_backslash. reflexivity.
  - rewrite scan_cons_0, matchAt_backslash. simpl doubleBackslashes.
    destruct (N.eqb c backslash); simpl; rewrite IH; reflexivity.
Qed.

(** ** The comment pattern *)

Lemma star_greedy_to_eol (t : str) :
  forall (pv : option char) (c : option str),
    star_greedy commentPattern Dot
      (m commentPattern (Seq Eol Eps) (fun y => Some y)) pv t c
    = Some (State (prevAfter pv (takeWhile notTerminator t))
                  (dropWhile notTerminator t) c).
Proof.
  induction t as [|d t IH]; intros pv c.
  - reflexivity.
  - cbn [star_greedy takeWhile dropWhile].
    change (atomMatches commentPattern Dot d) with (notTerminator d).
    destruct (notTerminator d) eqn:Ed.
    + rewrite IH. reflexivity.
    + apply negb_false_iff in Ed.
      cbn [m atLineEnd rest]. rewrite Ed. reflexivity.
Qed.

Lemma matchAt_comment (pv : option char) (t : str) :
  matchAt commentPattern pv t =
  match t with
  | d :: t' =>
      if N.eqb d percent
      then Some (Match (percent :: takeWhile notTerminator t') None)
      else None
  | [] => None
  end.
Proof.
  unfold matchAt.
  change (body commentPattern)
    with (Seq (lits [percent]) (Seq (Star true Dot) (Seq Eol Eps))).
  cbn [m]. rewrite m_lits. cbn [rest prev cap stripPrefix].
  destruct t as [|d t]; auto.
  destruct (N.eqb_spec d percent) as [->|Hne]; auto.
  cbn [m prev rest cap]. rewrite star_greedy_to_eol. cbn [rest cap].
  f_equal. f_equal.
  rewrite <- (takeWhile_dropWhile notTerminator t) at 1 3.
  change (percent :: takeWhile notTerminator t ++ dropWhile notTerminator t)
    with ((percent :: takeWhile notTerminator t) ++ dropWhile notTerminator t).
  apply firstn_app_length.
Qed.

(** One step of comment stripping: at a [%] the rest of the line goes,
    any other code unit stays. *)
Lemma stripComments_step (pv : option char) (t : str) :
  flat_map (subst []) (scan commentPattern pv t 0) =
  match t with
  | [] => []
  | c :: t' =>
      if N.eqb c percent
      then flat_map (subst [])
             (scan commentPattern
                   (prevAfter pv (percent :: takeWhile notTerminator t'))
                   (dropWhile notTerminator t') 0)
      else c :: flat_map (subst []) (scan commentPattern (Some c) t' 0)
  end.
Proof.
  rewrite replace_step, matchAt_comment.
  destruct t as [|c t]; auto.
  destruct (N.eqb_spec c percent) as [->|Hne]; auto.
  cbn [m0 app length skipn]. rewrite skipn_takeWhile. reflexivity.
Qed.

Lemma splitLines_head (t : str) :
  exists e r,
    splitLines t = (takeWhile notTerminator t, e) :: r /\
    splitLines (dropWhile notTerminator t) = ([], e) :: r.
Proof.
  induction t as [|c t (e & r & IH1 & IH2)].
  - exists None, []. auto.
  - cbn [splitLines takeWhile dropWhile]. unfold notTerminator at 1 3.
    destruct (isLineTerminator c) eqn:Ec; cbn [negb].
    + exists (Some c), (splitLines t). cbn [splitLines]. rewrite Ec. auto.
    + rewrite IH1. exists e, r. auto.
Qed.

Lemma percent_notTerminator : isLineTerminator percent = false.
Proof.
  reflexivity.
Qed.

(** The same step on the line-by-line description. *)
Lemma perLine_beforePercent_cons (c : char) (t : str) :
  perLine beforePercent (c :: t) =
  if N.eqb c percent then perLine beforePercent (dropWhile notTerminator t)
  else c :: perLine beforePercent t.
Proof.
  unfold perLine. cbn [splitLines].
  destruct (N.eqb_spec c percent) as [->|Hne].
  - rewrite percent_notTerminator.
    destruct (splitLines_head t) as (e & r & -> & ->). reflexivity.
  - destruct (isLineTerminator c); [reflexivity|].
    destruct (splitLines_head t) as (e & r & -> & _).
    cbn [flat_map fst snd]. unfold beforePercent at 1. cbn [takeWhile].
    apply N.eqb_neq in Hne. rewrite Hne. reflexivity.
Qed.

Lemma stripComments_perLine_aux (n : nat) :
  forall (t : str) (pv : option char),
    length t <= n ->
    flat_map (subst []) (scan commentPattern pv t 0) = perLine beforePercent t.
Proof.
  induction n as [|n IH]; intros t pv Hn; rewrite stripComments_step.
  - destruct t; [reflexivity|simpl in Hn; lia].
  - destruct t as [|c t]; [reflexivity|].
    rewrite perLine_beforePercent_cons. simpl in Hn.
    destruct (N.eqb c percent).
    + apply IH. pose proof (dropWhile_length notTerminator t). lia.
    + f_equal. apply IH. lia.
Qed.

Lemma stripComments_perLine (s : str) :
  stripComments s = perLine beforePercent s.
Proof.
  apply (stripComments_perLine_aux (length s)). lia.
Qed.

Lemma perLine_beforePercent_free (n : nat) :
  forall t : str, length t <= n -> ~ In percent (perLine beforePercent t).
Proof.
  induction n as [|n IH]; intros t Hn.
  - destruct t; [|simpl in Hn; lia]. cbv. tauto.
  - destruct t as [|c t]; [cbv; tauto|].
    rewrite perLine_beforePercent_cons. simpl in Hn.
    destruct (N.eqb_spec c percent) as [->|Hne].
    + apply IH. pose proof (dropWhile_length notTerminator t). lia.
    + intros [H|H]; [contradiction|]. revert H. apply IH. lia.
Qed.

(** Comment stripping leaves no [%]. *)
Lemma stripComments_free (s : str) : ~ In percent (stripComments s).
Proof.
  rewrite stripComments_perLine.
  apply (perLine_beforePercent_free (length s)). lia.
Qed.

(** A string without [%] has no comment to strip. *)
Lemma stripComments_id (s : str) : ~ In percent s -> stripComments s = s.
Proof.
  rewrite stripComments_perLine.
  induction s as [|c s IH]; intros H; [reflexivity|].
  rewrite perLine_beforePercent_cons.
  destruct (N.eqb_spec c percent) as [->|Hne].
  - exfalso. apply H. left. reflexivity.
  - f_equal. apply IH. intros Hin. apply H. right. exact Hin.
Qed.

(** ** The command pattern *)

Lemma star_greedy_to_close (t : str) :
  forall (pv : option char) (c : option str),
    star_greedy commandPattern (NoneOf [closeBrace])
      (m commandPattern (Seq (lits [closeBrace]) Eps) (fun y => Some y)) pv t c
    = match dropWhile notClose t with
      | _ :: t4 => Some (State (Some closeBrace) t4 c)
      | [] => None
      end.
Proof.
  induction t as [|d t IH]; intros pv c.
  - reflexivity.
  - cbn [star_greedy dropWhile].
    change (atomMatches commandPattern (NoneOf [closeBrace]) d)
      with (negb (N.eqb d closeBrace || false)).
    unfold notClose at 1. rewrite orb_false_r.
    destruct (N.eqb_spec d closeBrace) as [->|Hne]; cbn [negb].
    + cbn [m]. rewrite m_lits. reflexivity.
    + rewrite IH. destruct (dropWhile notClose t); auto.
      cbn [m]. rewrite m_lits. cbn [rest stripPrefix].
      apply N.eqb_neq in Hne. rewrite Hne. reflexivity.
Qed.

Lemma matchAt_command (pv : option char) (t : str) :
  option_map m0 (matchAt commandPattern pv t) =
  option_map (fun t4 => firstn (length t - length t4) t) (commandEnd t).
Proof.
  assert (H : option_map rest
                (m commandPattern (body commandPattern) (fun y => Some y)
                   (State pv t None)) = commandEnd t).
  { change (body commandPattern)
      with (Seq (lits [backslash])
             (Seq (Group (altLits (js "label")
                            (map js ["nonumber"; "tag"; "qquad"; "quad";
                                     "vspace"; "hspace"]%string)))
             (Seq (lits [openBrace])
             (Seq (Star true (NoneOf [closeBrace]))
             (Seq (lits [closeBrace]) Eps))))).
    unfold commandEnd. cbn [m]. rewrite m_lits. cbn [rest prev cap].
    destruct (stripPrefix [backslash] t) as [t1|]; [|reflexivity].
    cbn [m]. rewrite m_altLits. cbn [rest prev cap].
    apply firstSome_map. intros w.
    destruct (stripPrefix w t1) as [t2|]; [|reflexivity].
    cbn [prev rest cap]. rewrite m_lits. cbn [rest prev cap].
    destruct (stripPrefix [openBrace] t2) as [t3|]; [|reflexivity].
    cbn [m prev rest cap]. rewrite star_greedy_to_close.
    destruct (dropWhile notClose t3); reflexivity. }
  unfold matchAt. rewrite <- H.
  destruct (m commandPattern (body commandPattern) _ _); reflexivity.
Qed.

(** The command names are made of lower-case letters. *)
Lemma commandNames_letters (w : str) (c : char) :
  In w commandNames -> In c w -> (97 <= c <= 122)%N.
Proof.
  intros H Hc. each_member H ltac:(simpl in Hc; intuition (subst c; lia)).
Qed.

Lemma dropWhile_notClose_head (t t4 : str) (d : char) :
  dropWhile notClose t = d :: t4 ->
  d = closeBrace /\ t = takeWhile notClose t ++ closeBrace :: t4.
Proof.
  intros H. assert (Hd : d = closeBrace).
  { revert H. induction t as [|c t IH]; simpl; [discriminate|].
    destruct (notClose c) eqn:Ec; auto.
    intros H. injection H as -> _. unfold notClose in Ec.
    apply negb_false_iff, N.eqb_eq in Ec. exact Ec. }
  split; auto. subst d. rewrite <- H. symmetry. apply takeWhile_dropWhile.
Qed.

(** What [commandEnd] removes is a command with a brace argument. *)
Lemma commandEnd_sound (t t4 : str) :
  commandEnd t = Some t4 ->
  exists name arg,
    In name commandNames /\ braceFree arg /\ t = braceCommand name arg ++ t4.
Proof.
  unfold commandEnd.
  destruct (stripPrefix [backslash] t) as [t1|] eqn:E1; [|discriminate].
  apply stripPrefix_Some in E1. subst t.
  intros H. apply firstSome_In in H as (w & Hw & H).
  destruct (stripPrefix w t1) as [t2|] eqn:E2; [|discriminate].
  apply stripPrefix_Some in E2. subst t1.
  destruct (stripPrefix [openBrace] t2) as [t3|] eqn:E3; [|discriminate].
  apply stripPrefix_Some in E3. subst t2.
  destruct (dropWhile notClose t3) as [|d t5] eqn:E4; [discriminate|].
  injection H as ->. apply dropWhile_notClose_head in E4 as [-> E4].
  exists w, (takeWhile notClose t3). split; [exact Hw|]. split.
  - apply takeWhile_all.
  - rewrite E4 at 1. unfold braceCommand. simpl.
    rewrite <- !app_assoc. simpl. rewrite <- app_assoc. reflexivity.
Qed.

(** A command with a brace argument at the head is removed whole. *)
Lemma commandEnd_complete (name arg b : str) :
  In name commandNames -> braceFree arg ->
  commandEnd (braceCommand name arg ++ b) = Some b.
Proof.
  intros Hn Ha.
  assert (Hd : dropWhile notClose (arg ++ closeBrace :: b) = closeBrace :: b).
  { rewrite dropWhile_app_all by exact Ha. reflexivity. }
  unfold commandEnd, braceCommand.
  each_member Hn
    ltac:(cbn; rewrite <- app_assoc; cbn [app]; rewrite Hd; reflexivity).
Qed.

Lemma braceCommand_cons (name arg : str) :
  braceCommand name arg =
  (backslash :: name ++ openBrace :: arg) ++ [closeBrace].
Proof.
  unfold braceCommand. simpl. rewrite <- !app_assoc. reflexivity.
Qed.

Lemma braceCommand_body_free (name arg : str) :
  In name commandNames -> braceFree arg ->
  forallb notClose (backslash :: name ++ openBrace :: arg) = true.
Proof.
  intros Hn Ha. each_member Hn ltac:(cbn; exact Ha).
Qed.

Lemma commandEnd_shorter (t t4 : str) :
  commandEnd t = Some t4 -> length t4 < length t.
Proof.
  intros H. apply commandEnd_sound in H as (name & arg & _ & _ & ->).
  rewrite length_app. unfold braceCommand. simpl. lia.
Qed.

Lemma removeCommands_scan_step (pv : option char) (t : str) :
  flat_map (subst []) (scan commandPattern pv t 0) =
  match commandEnd t with
  | Some t4 =>
      flat_map (subst [])
        (scan commandPattern
              (prevAfter pv (firstn (length t - length t4) t)) t4 0)
  | None =>
      match t with
      | [] => []
      | c :: t' => c :: flat_map (subst []) (scan commandPattern (Some c) t' 0)
      end
  end.
Proof.
  rewrite replace_step. pose proof (matchAt_command pv t) as H.
  destruct (matchAt commandPattern pv t) as [r|];
    destruct (commandEnd t) as [t4|] eqn:E; try discriminate; auto.
  simpl in H. injection H as H. rewrite H.
  apply commandEnd_sound in E as (name & arg & _ & _ & ->).
  rewrite firstn_app_length, skipn_app_length. reflexivity.
Qed.

(** The command pattern has no assertion: what precedes a position does
    not matter. *)
Lemma removeCommands_scan_prev (n : nat) :
  forall (t : str) (pv pv' : option char),
    length t <= n ->
    flat_map (subst []) (scan commandPattern pv t 0) =
    flat_map (subst []) (scan commandPattern pv' t 0).
Proof.
  induction n as [|n IH]; intros t pv pv' Hn;
    rewrite (removeCommands_scan_step pv), (removeCommands_scan_step pv');
    destruct (commandEnd t) as [t4|] eqn:E.
  - apply commandEnd_shorter in E. lia.
  - reflexivity.
  - apply IH. apply commandEnd_shorter in E. lia.
  - reflexivity.
Qed.

(** One step of command removal. *)
Lemma removeCommands_step (t : str) :
  removeCommands t =
  match commandEnd t with
  | Some t4 => removeCommands t4
  | None =>
      match t with
      | [] => []
      | c :: t' => c :: removeCommands t'
      end
  end.
Proof.
  unfold removeCommands, replace. rewrite removeCommands_scan_step.
  destruct (commandEnd t) as [t4|].
  - apply (removeCommands_scan_prev (length t4)). lia.
  - destruct t as [|c t']; auto. f_equal.
    apply (removeCommands_scan_prev (length t')). lia.
Qed.

Lemma removeCommands_head (name arg b : str) :
  In name commandNames -> braceFree arg ->
  removeCommands (braceCommand name arg ++ b) = removeCommands b.
Proof.
  intros Hn Ha. rewrite removeCommands_step, commandEnd_complete; auto.
Qed.

(** A string without an opening brace has no command to remove. *)
Lemma removeCommands_id (s : str) : ~ In openBrace s -> removeCommands s = s.
Proof.
  induction s as [|c s IH]; intros H; [reflexivity|].
  rewrite removeCommands_step.
  destruct (commandEnd (c :: s)) as [t4|] eqn:E.
  - exfalso. apply commandEnd_sound in E as (name & arg & _ & _ & E).
    apply H. rewrite E. unfold braceCommand.
    apply in_or_app. left. apply in_or_app. right.
    apply in_or_app. right. left. reflexivity.
  - f_equal. apply IH. intros Hin. apply H. right. exact Hin.
Qed.

(** Where the first closing brace of a string is. *)
Lemma first_close_unique (x1 : str) :
  forall x2 y1 y2 : str,
    forallb notClose x1 = true -> forallb notClose x2 = true ->
    x1 ++ closeBrace :: y1 = x2 ++ closeBrace :: y2 ->
    x1 = x2 /\ y1 = y2.
Proof.
  induction x1 as [|c x1 IH]; intros [|d x2] y1 y2 H1 H2 E; simpl in *.
  - injection E as ->. auto.
  - injection E as <- _. apply andb_prop in H2 as [H2 _]. discriminate.
  - injection E as -> _. apply andb_prop in H1 as [H1 _]. discriminate.
  - injection E as -> E. apply andb_prop in H1 as [_ H1].
    apply andb_prop in H2 as [_ H2].
    destruct (IH x2 y1 y2 H1 H2 E) as [-> ->]. auto.
Qed.

Lemma forallb_app_r (f : char -> bool) (u v : str) :
  forallb f (u ++ v) = true -> forallb f v = true.
Proof.
  rewrite forallb_app. intros H. apply andb_prop in H. tauto.
Qed.

(** Every command with a brace argument is deleted, alone or as the end of
    a longer match that started before it. *)
Lemma removeCommands_occurrence (n : nat) :
  forall a : str,
    length a <= n ->
    forall name arg b : str,
      In name commandNames -> braceFree arg ->
      exists a1 a2 : str,
        a = a1 ++ a2 /\
        (a2 = [] \/
         exists name' arg',
           In name' commandNames /\ braceFree arg' /\
           a2 ++ braceCommand name arg = braceCommand name' arg') /\
        removeCommands (a ++ braceCommand name arg ++ b) =
        removeCommands a1 ++ removeCommands b.
Proof.
  induction n as [|n IH]; intros a Hn name arg b Hname Harg.
  - destruct a; [|simpl in Hn; lia]. exists [], []. simpl.
    repeat split; auto. apply removeCommands_head; auto.
  - rewrite removeCommands_step.
    destruct (commandEnd (a ++ braceCommand name arg ++ b)) as [t4|] eqn:E.
    + pose proof E as E'.
      apply commandEnd_sound in E' as (name' & arg' & Hname' & Harg' & E').
      apply app_eq_app in E' as (l & [[Ea Et]|[Ea Et]]).
      * (* the match ends inside [a] *)
        assert (Hl : length l <= n).
        { rewrite Ea, length_app in Hn. unfold braceCommand in Hn.
          simpl in Hn. lia. }
        destruct (IH l Hl name arg b Hname Harg) as (l1 & a2 & El & Ha2 & ER).
        exists (braceCommand name' arg' ++ l1), a2.
        rewrite Ea, El, <- app_assoc. split; [reflexivity|]. split; [exact Ha2|].
        rewrite removeCommands_head by assumption.
        rewrite Et, <- ER, El. reflexivity.
      * (* the match runs over the command *)
        destruct l as [|x l0].
        { rewrite app_nil_r in Ea. change ([] ++ t4) with t4 in Et.
          subst a t4.
          exists (braceCommand name' arg'), []. rewrite app_nil_r.
          split; [reflexivity|]. split; [left; reflexivity|].
          rewrite removeCommands_head by assumption.
          rewrite <- (app_nil_r (braceCommand name' arg')).
          rewrite removeCommands_head by assumption. reflexivity. }
        destruct (@exists_last _ (x :: l0)) as (l' & z & El);
          [discriminate|]. rewrite El in Ea, Et. clear El x l0.
        rewrite braceCommand_cons, app_assoc in Ea.
        apply app_inj_tail in Ea as [Ea <-].
        pose proof (braceCommand_body_free name' arg' Hname' Harg') as Hfree.
        rewrite Ea in Hfree. apply forallb_app_r in Hfree.
        rewrite braceCommand_cons, <- !app_assoc in Et.
        change ([closeBrace] ++ b) with (closeBrace :: b) in Et.
        change ([closeBrace] ++ t4) with (closeBrace :: t4) in Et.
        apply first_close_unique in Et as [El Eb];
          [|apply braceCommand_body_free; assumption|exact Hfree].
        subst l' t4. exists [], a. simpl. split; [reflexivity|]. split; auto.
        right. exists name', arg'. split; [exact Hname'|]. split; [exact Harg'|].
        rewrite !braceCommand_cons, app_assoc, <- Ea. reflexivity.
    + destruct a as [|c a].
      * rewrite app_nil_l, commandEnd_complete in E by assumption.
        discriminate.
      * simpl in Hn. assert (Hl : length a <= n) by lia.
        destruct (IH a Hl name arg b Hname Harg) as (a1 & a2 & El & Ha2 & ER).
        subst a. exists (c :: a1), a2. split; [reflexivity|].
        split; [exact Ha2|].
        change (c :: removeCommands ((a1 ++ a2) ++ braceCommand name arg ++ b)
                = removeCommands (c :: a1) ++ removeCommands b).
        rewrite ER, (removeCommands_step (c :: a1)).
        destruct (commandEnd (c :: a1)) as [t5|] eqn:E5; [|reflexivity].
        exfalso.
        apply commandEnd_sound in E5 as (name5 & arg5 & Hn5 & Ha5 & E5).
        change ((c :: a1 ++ a2) ++ braceCommand name arg ++ b)
          with (((c :: a1) ++ a2) ++ braceCommand name arg ++ b) in E.
        rewrite <- app_assoc, E5, <- app_assoc in E.
        rewrite commandEnd_complete in E by assumption.
        discriminate.
Qed.

(** ** The blank-line pattern *)

Lemma isBreak_isSpace (d : char) : isBreak d = true -> isSpace d = true.
Proof.
  unfold isBreak, mem. simpl. rewrite orb_false_r. intros H.
  apply orb_prop in H as [H|H]; apply N.eqb_eq in H; subst d; reflexivity.
Qed.

Lemma isBreak_lineStart (d : char) : isBreak d = true -> lineStart (Some d) = true.
Proof.
  unfold isBreak, mem. simpl. rewrite orb_false_r. intros H.
  apply orb_prop in H as [H|H]; apply N.eqb_eq in H; subst d; reflexivity.
Qed.

Lemma star_greedy_blank (t : str) :
  forall (pv : option char) (c : option str),
    option_map rest
      (star_greedy blankLinePattern Space
         (m blankLinePattern (Seq (Atom (OneOf [13; 10]%N)) Eps)
            (fun y => Some y)) pv t c)
    = blankEnd t.
Proof.
  induction t as [|d t IH]; intros pv c.
  - reflexivity.
  - cbn [star_greedy blankEnd].
    change (atomMatches blankLinePattern Space d) with (isSpace d).
    assert (Hk : option_map rest
                   (m blankLinePattern (Seq (Atom (OneOf [13; 10]%N)) Eps)
                      (fun y => Some y) (State pv (d :: t) c))
                 = if isBreak d then Some t else None).
    { cbn [m rest].
      change (atomMatches blankLinePattern (OneOf [13; 10]%N) d)
        with (isBreak d).
      destruct (isBreak d); reflexivity. }
    destruct (isSpace d) eqn:Es.
    + specialize (IH (Some d) c).
      destruct (star_greedy blankLinePattern Space _ (Some d) t c) as [y|];
        rewrite <- IH; [reflexivity|exact Hk].
    + rewrite Hk. destruct (isBreak d) eqn:Eb; [|reflexivity].
      apply isBreak_isSpace in Eb. congruence.
Qed.

Lemma matchAt_blank (pv : option char) (t : str) :
  option_map m0 (matchAt blankLinePattern pv t) =
  if lineStart pv
  then option_map (fun r => firstn (length t - length r) t) (blankEnd t)
  else None.
Proof.
  unfold matchAt.
  change (body blankLinePattern)
    with (Seq Bol (Seq (Star true Space)
                       (Seq (Atom (OneOf [13; 10]%N)) Eps))).
  cbn [m].
  change (atLineStart blankLinePattern (State pv t None)) with (lineStart pv).
  destruct (lineStart pv); [|reflexivity].
  cbn [prev rest cap]. rewrite <- (star_greedy_blank t pv None).
  destruct (star_greedy blankLinePattern Space _ pv t None); reflexivity.
Qed.

Lemma blankEnd_sound (t : str) :
  forall r : str,
    blankEnd t = Some r ->
    exists u d, t = u ++ d :: r /\ isBreak d = true.
Proof.
  induction t as [|c t IH]; intros r; simpl; [discriminate|].
  destruct (isSpace c); [|discriminate].
  destruct (blankEnd t) as [r'|].
  - intros H. injection H as ->.
    destruct (IH r eq_refl) as (u & d & -> & Hd). exists (c :: u), d. auto.
  - destruct (isBreak c) eqn:Eb; [|discriminate].
    intros H. injection H as ->. exists [], c. auto.
Qed.

(** A blank line at a line start goes, up to its last line break. *)
Lemma eraseBlank_hit (pv : option char) (t r : str) :
  lineStart pv = true -> blankEnd t = Some r ->
  exists d, isBreak d = true /\
            eraseFrom blankLinePattern pv t = eraseFrom blankLinePattern (Some d) r.
Proof.
  intros Hpv Hr. unfold eraseFrom. rewrite replace_step.
  pose proof (matchAt_blank pv t) as H. rewrite Hpv, Hr in H.
  destruct (matchAt blankLinePattern pv t) as [mt|]; [|discriminate].
  simpl in H. injection H as H'. rewrite H'.
  apply blankEnd_sound in Hr as (u & d & -> & Hd). exists d. split; auto.
  replace (u ++ d :: r) with ((u ++ [d]) ++ r)
    by (rewrite <- app_assoc; reflexivity).
  rewrite firstn_app_length, skipn_app_length, prevAfter_app.
  cbn [app]. destruct u; reflexivity.
Qed.

(** Anywhere else the code unit stays. *)
Lemma eraseBlank_miss (pv : option char) (t : str) :
  lineStart pv = false \/ blankEnd t = None ->
  eraseFrom blankLinePattern pv t =
  match t with
  | [] => []
  | c :: t' => c :: eraseFrom blankLinePattern (Some c) t'
  end.
Proof.
  intros Hm. unfold eraseFrom. rewrite replace_step.
  pose proof (matchAt_blank pv t) as H.
  destruct (matchAt blankLinePattern pv t) as [mt|]; [|reflexivity].
  exfalso. destruct Hm as [Hm|Hm]; rewrite Hm in H;
    [|destruct (lineStart pv)]; discriminate.
Qed.

Lemma eraseBlank_stable (t : str) :
  forall pv : option char,
    stable pv t = true -> eraseFrom blankLinePattern pv t = t.
Proof.
  induction t as [|c t IH]; intros pv H; cbn [stable] in H;
    apply andb_prop in H as [H1 H2]; rewrite eraseBlank_miss.
  - reflexivity.
  - right. reflexivity.
  - f_equal. apply IH. exact H2.
  - apply orb_prop in H1 as [H1|H1].
    + left. apply negb_true_iff. exact H1.
    + right. destruct (blankEnd (c :: t)); [discriminate|reflexivity].
Qed.

Lemma stable_nil (pv : option char) : stable pv [] = true.
Proof.
  simpl. rewrite orb_true_r. reflexivity.
Qed.

Lemma stable_prev (pv pv' : option char) (t : str) :
  lineStart pv = lineStart pv' -> stable pv t = stable pv' t.
Proof.
  intros H. destruct t; simpl; rewrite H; reflexivity.
Qed.

Lemma blankEnd_erase (t : str) :
  forall pv : option char,
    blankEnd t = None -> blankEnd (eraseFrom blankLinePattern pv t) = None.
Proof.
  induction t as [|c t IH]; intros pv H; rewrite eraseBlank_miss by auto.
  - reflexivity.
  - simpl in H. simpl. destruct (isSpace c); [|reflexivity].
    destruct (blankEnd t); [discriminate|].
    rewrite IH by reflexivity. destruct (isBreak c); [discriminate|reflexivity].
Qed.

(** After blank-line removal the pattern matches nowhere. *)
Lemma erase_stable (n : nat) :
  forall (t : str) (pv : option char),
    length t <= n -> stable pv (eraseFrom blankLinePattern pv t) = true.
Proof.
  induction n as [|n IH]; intros t pv Hn.
  - destruct t; [|simpl in Hn; lia].
    rewrite eraseBlank_miss by auto. apply stable_nil.
  - destruct (lineStart pv) eqn:Hpv; [destruct (blankEnd t) as [r|] eqn:Hr|].
    + destruct (eraseBlank_hit pv t r Hpv Hr) as (d & Hd & ->).
      rewrite (stable_prev pv (Some d)).
      * apply IH. apply blankEnd_sound in Hr as (u & d' & -> & _).
        rewrite length_app in Hn. simpl in Hn. lia.
      * rewrite Hpv. symmetry. apply isBreak_lineStart. exact Hd.
    + pose proof (blankEnd_erase t pv Hr) as Hb.
      rewrite eraseBlank_miss in Hb |- * by auto.
      destruct t as [|c t]; [apply stable_nil|].
      cbn [stable]. rewrite Hb. rewrite orb_true_r. cbn [andb]. apply IH.
      simpl in Hn. lia.
    + rewrite eraseBlank_miss by auto.
      destruct t as [|c t]; [apply stable_nil|].
      cbn [stable]. rewrite Hpv. cbn [negb orb andb]. apply IH.
      simpl in Hn. lia.
Qed.

(** ** Trimming *)

Lemma dropWhile_idem (f : char -> bool) (s : str) :
  dropWhile f (dropWhile f s) = dropWhile f s.
Proof.
  induction s as [|c s IH]; simpl; auto.
  destruct (f c) eqn:E; auto. simpl. rewrite E. reflexivity.
Qed.

Lemma dropWhile_head (f : char -> bool) (s w : str) (h : char) :
  dropWhile f s = h :: w -> f h = false.
Proof.
  induction s as [|c s IH]; simpl; [discriminate|].
  destruct (f c) eqn:E; auto. intros H. injection H as -> _. exact E.
Qed.

Lemma dropWhile_snoc (f : char -> bool) (u : str) (h : char) :
  f h = false -> dropWhile f (u ++ [h]) = dropWhile f u ++ [h].
Proof.
  intros Hh. induction u as [|c u IH]; simpl.
  - rewrite Hh. reflexivity.
  - destruct (f c); auto.
Qed.

Lemma dropWhile_In (f : char -> bool) (d : char) (s : str) :
  In d (dropWhile f s) -> In d s.
Proof.
  induction s as [|c s IH]; simpl; auto.
  destruct (f c); auto.
Qed.

Lemma trimEnd_cons (h : char) (w : str) :
  isSpace h = false -> trimEnd (h :: w) = h :: trimEnd w.
Proof.
  intros Hh. unfold trimEnd. simpl rev at 2.
  rewrite dropWhile_snoc by exact Hh. rewrite rev_app_distr. reflexivity.
Qed.

Lemma trimEnd_idem (s : str) : trimEnd (trimEnd s) = trimEnd s.
Proof.
  unfold trimEnd. rewrite rev_involutive, dropWhile_idem. reflexivity.
Qed.

Lemma trimEnd_prefix (s : str) : exists w, s = trimEnd s ++ w.
Proof.
  exists (rev (takeWhile isSpace (rev s))). unfold trimEnd.
  rewrite <- rev_app_distr, takeWhile_dropWhile, rev_involutive.
  reflexivity.
Qed.

Lemma trimStart_trim (s : str) : trimStart (trim s) = trim s.
Proof.
  unfold trim, trimStart.
  destruct (dropWhile isSpace s) as [|h w] eqn:E; [reflexivity|].
  apply dropWhile_head in E. rewrite trimEnd_cons by exact E.
  simpl. rewrite E. reflexivity.
Qed.

(** Trimming twice is trimming once. *)
Lemma trim_trim (s : str) : trim (trim s) = trim s.
Proof.
  unfold trim at 1. rewrite trimStart_trim. unfold trim.
  apply trimEnd_idem.
Qed.

Lemma trim_In (d : char) (s : str) : In d (trim s) -> In d s.
Proof.
  unfold trim, trimEnd, trimStart. rewrite <- in_rev. intros H.
  apply dropWhile_In in H. rewrite <- in_rev in H.
  apply dropWhile_In in H. exact H.
Qed.

Lemma dropWhile_all (f : char -> bool) (s : str) :
  forallb f s = true -> dropWhile f s = [].
Proof.
  induction s as [|c s IH]; simpl; auto.
  intros H. apply andb_prop in H as [Hc Hs]. rewrite Hc. auto.
Qed.

Lemma trim_first (s t : str) (c : char) :
  trim s = c :: t -> isSpace c = false.
Proof.
  unfold trim, trimStart.
  destruct (dropWhile isSpace s) as [|h w] eqn:E; [discriminate|].
  apply dropWhile_head in E. rewrite trimEnd_cons by exact E.
  intros H. injection H as <- _. exact E.
Qed.

Lemma trim_last (s t : str) (c : char) :
  trim s = t ++ [c] -> isSpace c = false.
Proof.
  unfold trim, trimEnd. intros H.
  apply (f_equal (@rev char)) in H.
  rewrite rev_involutive, rev_app_distr in H. simpl in H.
  apply dropWhile_head in H. exact H.
Qed.

(** ** Trimming a string without blank lines *)

Lemma stable_suffix (u : str) :
  forall (pv : option char) (v : str),
    stable pv (u ++ v) = true -> stable (prevAfter pv u) v = true.
Proof.
  induction u as [|c u IH]; intros pv v H; [exact H|].
  cbn [app stable] in H. apply andb_prop in H as [_ H].
  apply (IH (Some c)). exact H.
Qed.

Lemma blankEnd_prefix (u : str) :
  forall w : str, blankEnd (u ++ w) = None -> blankEnd u = None.
Proof.
  induction u as [|c u IH]; intros w H; [reflexivity|].
  cbn [app blankEnd] in H |- *. destruct (isSpace c); [|reflexivity].
  destruct (blankEnd (u ++ w)) eqn:E; [discriminate|].
  rewrite (IH w) by exact E. destruct (isBreak c); [discriminate|reflexivity].
Qed.

Lemma stable_prefix (u : str) :
  forall (pv : option char) (w : str),
    stable pv (u ++ w) = true -> stable pv u = true.
Proof.
  induction u as [|c u IH]; intros pv w H; [apply stable_nil|].
  change ((c :: u) ++ w) with (c :: u ++ w) in H.
  cbn [stable] in H |- *. apply andb_prop in H as [H1 H2].
  apply andb_true_intro. split; [|apply (IH (Some c) w); exact H2].
  apply orb_prop in H1 as [H1|H1]; [rewrite H1; reflexivity|].
  apply orb_true_iff. right.
  destruct (blankEnd (c :: u ++ w)) eqn:E; [discriminate|].
  change (c :: u ++ w) with ((c :: u) ++ w) in E.
  rewrite (blankEnd_prefix (c :: u) w E). reflexivity.
Qed.

Lemma stable_trim (pv : option char) (s : str) :
  stable pv s = true -> stable None (trim s) = true.
Proof.
  intros H. unfold trim.
  destruct (trimEnd_prefix (trimStart s)) as (w & Ew).
  apply (stable_prefix _ None w). rewrite <- Ew. unfold trimStart.
  rewrite <- (takeWhile_dropWhile isSpace s) in H.
  apply stable_suffix in H.
  destruct (dropWhile isSpace s) as [|h v] eqn:E; [apply stable_nil|].
  apply dropWhile_head in E. cbn [stable blankEnd] in H |- *.
  rewrite E in H |- *. cbn [isNone] in H |- *.
  rewrite orb_true_r in H |- *. exact H.
Qed.

(** ** [cleanLatexSyntax] on its own results *)

Lemma clean_free (x : str) : ~ In percent (cleanLatexSyntax x).
Proof.
  unfold cleanLatexSyntax. intros H. apply trim_In in H.
  apply erase_In in H. apply erase_In in H.
  exact (stripComments_free x H).
Qed.

Lemma clean_stable (x : str) : stable None (cleanLatexSyntax x) = true.
Proof.
  unfold cleanLatexSyntax. apply (stable_trim None).
  apply (erase_stable (length (removeCommands (stripComments x)))). lia.
Qed.


(** ** What trimming leaves *)

Lemma forallb_rev (f : char -> bool) (l : str) :
  forallb f l = true -> forallb f (rev l) = true.
Proof.
  intros H. apply forallb_forall. intros c Hc. apply in_rev in Hc.
  exact (proj1 (forallb_forall _ _) H c Hc).
Qed.

Lemma trim_Trimmed (s : str) : Trimmed s (trim s).
Proof.
  exists (takeWhile isSpace s), (rev (takeWhile isSpace (rev (trimStart s)))).
  split; [|split; [|split; [|split]]].
  - unfold trim, trimEnd.
    rewrite <- rev_app_distr, takeWhile_dropWhile, rev_involutive.
    unfold trimStart. symmetry. apply takeWhile_dropWhile.
  - apply takeWhile_all.
  - apply forallb_rev, takeWhile_all.
  - intros c t' E. exact (trim_first s t' c E).
  - intros t' c E. exact (trim_last s t' c E).
Qed.

Lemma Trimmed_trim (s t : str) : Trimmed s t -> t = trim s.
Proof.
  intros (a & b & -> & Ha & Hb & Hf & Hl). unfold trim, trimStart.
  rewrite dropWhile_app_all by exact Ha.
  destruct t as [|c t'].
  - cbn [app]. rewrite dropWhile_all by exact Hb. reflexivity.
  - pose proof (Hf c t' eq_refl) as Hc.
    change ((c :: t') ++ b) with (c :: t' ++ b). cbn [dropWhile]. rewrite Hc.
    change (c :: t' ++ b) with ((c :: t') ++ b).
    destruct (@exists_last _ (c :: t')) as (u & z & E); [discriminate|].
    rewrite E in Hl |- *. pose proof (Hl u z eq_refl) as Hz.
    unfold trimEnd. rewrite rev_app_distr.
    rewrite dropWhile_app_all by (apply forallb_rev; exact Hb).
    rewrite rev_app_distr. cbn [rev app dropWhile]. rewrite Hz.
    cbn [rev]. rewrite rev_involutive. reflexivity.
Qed.

(** ** Texts without a command in brace form *)

Lemma noBraceForm_tail (c : char) (s : str) :
  noBraceForm (c :: s) -> noBraceForm s.
Proof.
  intros H a name b Hn E. apply (H (c :: a) name b Hn). rewrite E. reflexivity.
Qed.

Lemma noBraceForm_commandEnd (s : str) :
  noBraceForm s -> commandEnd s = None.
Proof.
  intros H. destruct (commandEnd s) as [t4|] eqn:E; [|reflexivity].
  exfalso. apply commandEnd_sound in E as (name & arg & Hn & _ & E).
  apply (H [] name (arg ++ [closeBrace] ++ t4) Hn). rewrite E.
  unfold braceCommand. rewrite <- !app_assoc. reflexivity.
Qed.

Lemma removeCommands_noBraceForm (s : str) :
  noBraceForm s -> removeCommands s = s.
Proof.
  induction s as [|c s IH]; intros H; [reflexivity|].
  rewrite removeCommands_step, (noBraceForm_commandEnd _ H).
  f_equal. apply IH. exact (noBraceForm_tail c s H).
Qed.

Lemma braceCommand_split (name arg t : str) :
  braceCommand name arg ++ t =
  backslash :: (name ++ [openBrace]) ++ arg ++ closeBrace :: t.
Proof.
  unfold braceCommand. rewrite <- !app_assoc. reflexivity.
Qed.

(** Before a command in brace form, a text without one is kept whole. *)
Lemma removeCommands_after_plain (a : str) :
  forall name arg b : str,
    noBraceForm a -> In name commandNames -> braceFree arg ->
    removeCommands (a ++ braceCommand name arg ++ b) = a ++ removeCommands b.
Proof.
  induction a as [|c a IH]; intros name arg b Ha Hn Harg.
  - apply removeCommands_head; assumption.
  - change ((c :: a) ++ braceCommand name arg ++ b)
      with (c :: a ++ braceCommand name arg ++ b).
    rewrite removeCommands_step.
    destruct (commandEnd (c :: a ++ braceCommand name arg ++ b))
      as [t4|] eqn:E.
    + exfalso.
      apply commandEnd_sound in E as (name' & arg' & Hn' & _ & E).
      rewrite (braceCommand_split name' arg' t4) in E. injection E as -> E.
      apply app_eq_app in E as (l & [[Ea _]|[Ea El]]).
      * apply (Ha [] name' l Hn'). rewrite Ea, <- app_assoc. reflexivity.
      * destruct l as [|x l].
        { rewrite app_nil_r in Ea. apply (Ha [] name' [] Hn').
          rewrite <- Ea, app_nil_r. reflexivity. }
        cbn [app] in El. injection El as <- _.
        assert (Hin : In backslash (name' ++ [openBrace])).
        { rewrite Ea. apply in_or_app. right. left. reflexivity. }
        apply in_app_or in Hin as [Hin|[Hin|[]]]; [|discriminate].
        apply (commandNames_letters name' backslash Hn') in Hin.
        cbv in Hin. destruct Hin as [Hin _]. apply Hin. reflexivity.
    + cbn [app]. f_equal. apply IH; auto. exact (noBraceForm_tail c a Ha).
Qed.

Lemma braceFormAt_head (name b : str) :
  In name commandNames ->
  braceFormAt ([backslash] ++ name ++ [openBrace] ++ b) = true.
Proof.
  intros Hn. unfold braceFormAt. cbn [app stripPrefix].
  rewrite N.eqb_refl. apply existsb_exists. exists name. split; [exact Hn|].
  replace (name ++ openBrace :: b) with ((name ++ [openBrace]) ++ b)
    by (rewrite <- app_assoc; reflexivity).
  rewrite (proj2 (stripPrefix_Some _ _ b) eq_refl). reflexivity.
Qed.

Lemma hasBraceForm_head (s : str) :
  hasBraceForm s = false -> braceFormAt s = false.
Proof.
  destruct s; cbn [hasBraceForm]; intros H;
    apply orb_false_elim in H as [H _]; exact H.
Qed.

Lemma hasBraceForm_false (s : str) : hasBraceForm s = false -> noBraceForm s.
Proof.
  intros H a name b Hn E. subst s. induction a as [|c a IH].
  - apply hasBraceForm_head in H.
    change ([] ++ [backslash] ++ name ++ [openBrace] ++ b)
      with ([backslash] ++ name ++ [openBrace] ++ b) in H.
    rewrite (braceFormAt_head name b Hn) in H. discriminate.
  - change ((c :: a) ++ [backslash] ++ name ++ [openBrace] ++ b)
      with (c :: a ++ [backslash] ++ name ++ [openBrace] ++ b) in H.
    cbn [hasBraceForm] in H. apply orb_false_elim in H as [_ H].
    exact (IH H).
Qed.

(** Command removal deletes commands in brace form and nothing else. *)
Lemma removeCommands_deletions (n : nat) :
  forall s : str,
    length s <= n ->
    exists (l : list deletion) (tail : str),
      Forall (fun d => In (cmdName d) commandNames /\ braceFree (cmdArg d)) l /\
      s = withCommands l tail /\
      removeCommands s = withoutCommands l tail.
Proof.
  induction n as [|n IH]; intros s Hn.
  - destruct s; [|simpl in Hn; lia]. exists [], []. auto.
  - rewrite removeCommands_step.
    destruct (commandEnd s) as [t4|] eqn:E.
    + pose proof (commandEnd_shorter _ _ E) as Hlt.
      apply commandEnd_sound in E as (name & arg & Hname & Harg & ->).
      destruct (IH t4) as (l & tail & Hl & Et & Er); [lia|].
      exists (Deletion [] name arg :: l), tail. split; [|split].
      * constructor; [split; assumption|exact Hl].
      * unfold withCommands. cbn [flat_map before cmdName cmdArg app].
        rewrite <- app_assoc. f_equal. exact Et.
      * rewrite Er. reflexivity.
    + destruct s as [|c s]; [exists [], []; auto|].
      simpl in Hn. destruct (IH s) as (l & tail & Hl & Et & Er); [lia|].
      destruct l as [|d l].
      * exists [], (c :: tail). split; [constructor|].
        unfold withCommands, withoutCommands in *. cbn [flat_map app] in *.
        split; [rewrite Et at 1; reflexivity|rewrite Er; reflexivity].
      * exists (Deletion (c :: before d) (cmdName d) (cmdArg d) :: l), tail.
        split; [constructor;
                [exact (Forall_inv Hl)|exact (Forall_inv_tail Hl)]|].
        unfold withCommands, withoutCommands in *.
        cbn [flat_map before cmdName cmdArg app] in *.
        split; [rewrite Et at 1|rewrite Er]; rewrite <- !app_assoc;
          reflexivity.
Qed.

Lemma stripComments_app_free (u b : str) :
  ~ In percent u -> stripComments (u ++ b) = u ++ stripComments b.
Proof.
  rewrite !stripComments_perLine.
  induction u as [|c u IH]; intros H; [reflexivity|].
  cbn [app]. rewrite perLine_beforePercent_cons.
  destruct (N.eqb_spec c percent) as [->|Hne].
  - exfalso. apply H. left. reflexivity.
  - f_equal. apply IH. intros Hin. apply H. right. exact Hin.
Qed.

Lemma In_patterns (pat : pattern) :
  In pat patterns -> exists cv, In cv conventions /\ pat = conventionPattern cv.
Proof.
  rewrite patterns_conventions, in_map_iff. intros (cv & <- & H). eauto.
Qed.

(** * The claims *)

(** C1. The output of [extractMathExpressions] is grouped by pass, in the
    order of the pattern array: it is the results of the six passes one
    after the other, so every string of the [\(...\)] pass comes before
    every string of the [$...$] pass, wherever the matches stand in the
    input; in ["$y$ then \(x\)"] the dollar match stands first and comes
    out last. *)
Theorem extract_grouped_by_pass :
  (forall s : str,
     extractMathExpressions s =
     pass parenPattern s ++ pass bracketPattern s ++ pass dollarPattern s ++
     pass equationPattern s ++ pass alignPattern s ++ pass multlinePattern s)
  /\
  (forall s : str, exists between after : list str,
     extractMathExpressions s =
     pass parenPattern s ++ between ++ pass dollarPattern s ++ after)
  /\
  pass parenPattern (js "$y$ then \(x\)") = [js "\(x\)"] /\
  pass dollarPattern (js "$y$ then \(x\)") = [js "y"] /\
  extractMathExpressions (js "$y$ then \(x\)") = [js "\(x\)"; js "y"].
Proof.
  assert (H : forall s : str,
             extractMathExpressions s =
             pass parenPattern s ++ pass bracketPattern s ++
             pass dollarPattern s ++ pass equationPattern s ++
             pass alignPattern s ++ pass multlinePattern s).
  { intros s. rewrite extract_passes. simpl. rewrite app_nil_r. reflexivity. }
  split; [exact H|]. split.
  - intros s. exists (pass bracketPattern s).
    exists (pass equationPattern s ++ pass alignPattern s ++
            pass multlinePattern s).
    apply H.
  - repeat split; vm_compute; reflexivity.
Qed.

(** C2. A match of any of the six passes pushes the inner text when the
    pattern captures it and it is not empty, and the whole matched text,
    delimiters included, otherwise.  ["\(a+b\)"] gives itself, the first
    pattern having no capture group, and ["\[a+b\]"] gives ["a+b"]. *)
Theorem match_pushes_inner_or_whole :
  (forall (pat : pattern) (s : str) (mt : matchResult),
     In pat patterns -> In mt (matchAll pat s) ->
     exists (cv : convention) (inner : str),
       In cv conventions /\ pat = conventionPattern cv /\
       m0 mt = opening cv ++ inner ++ closing cv /\
       m1 mt = (if captures cv then Some inner else None) /\
       forall acc : list str,
         push_match acc mt =
         acc ++ [if captures cv
                 then match inner with
                      | [] => opening cv ++ inner ++ closing cv
                      | _ :: _ => inner
                      end
                 else opening cv ++ inner ++ closing cv])
  /\
  extractMathExpressions (js "\(a+b\)") = [js "\(a+b\)"] /\
  extractMathExpressions (js "\[a+b\]") = [js "a+b"].
Proof.
  split; [|split; vm_compute; reflexivity].
  intros pat s mt Hpat Hmt.
  apply In_patterns in Hpat as (cv & Hcv & ->).
  apply matchAll_convention in Hmt as (inner & _ & H0 & H1).
  exists cv, inner. repeat split; auto.
  intros acc. unfold push_match. rewrite H1, H0.
  pose proof (opening_nonempty cv Hcv) as Ho.
  destruct (captures cv); [destruct inner|];
    destruct (opening cv); try contradiction; reflexivity.
Qed.

Lemma match_pushes_inner_or_whole_witness :
  exists (cv : convention) (inner : str),
    In cv conventions /\ bracketPattern = conventionPattern cv /\
    m0 (Match (js "\[a+b\]") (Some (js "a+b")))
    = opening cv ++ inner ++ closing cv /\
    m1 (Match (js "\[a+b\]") (Some (js "a+b")))
    = (if captures cv then Some inner else None) /\
    forall acc : list str,
      push_match acc (Match (js "\[a+b\]") (Some (js "a+b"))) =
      acc ++ [if captures cv
              then match inner with
                   | [] => opening cv ++ inner ++ closing cv
                   | _ :: _ => inner
                   end
              else opening cv ++ inner ++ closing cv].
Proof.
  apply (proj1 match_pushes_inner_or_whole bracketPattern (js "\[a+b\]")).
  - simpl. auto.
  - vm_compute. left. reflexivity.
Defined.

(** C3, as the code has it.  Comment stripping removes, on every line, the
    text from the first [%] of the line to its end, whether or not a
    backslash stands before that [%], and leaves what precedes it on the
    line and the line terminators as they are. *)
Theorem stripComments_from_first_percent :
  forall s : str,
    stripComments s = perLine beforePercent s /\
    cleanLatexSyntax s =
    trim (removeBlankLines (removeCommands (perLine beforePercent s))).
Proof.
  intros s. unfold cleanLatexSyntax. rewrite stripComments_perLine. auto.
Qed.

(** C3, as the specification states it, fails: in ["a\%b"] the only [%] is
    escaped, so nothing should go, and the code cuts the line at it. *)
Lemma escaped_percent_starts_comment :
  perLine (beforeUnescapedPercent false) (js "a\%b") = js "a\%b" /\
  stripComments (js "a\%b") = js "a\" /\
  stripComments (js "a\%b") <> perLine (beforeUnescapedPercent false) (js "a\%b").
Proof.
  split; [vm_compute; reflexivity|].
  split; [vm_compute; reflexivity|]. vm_compute. discriminate.
Qed.

(** C4, as the code has it.  Command removal works on the text that
    comment stripping left.  There every command [\label], [\nonumber],
    [\tag], [\qquad], [\quad], [\vspace] or [\hspace] followed by a brace
    argument is deleted with its argument: the result is that of the text
    before it (up to the start of a longer match that ends with it)
    followed by that of the text after it.  At the head of the input a
    command whose argument has no [%] goes whole, as in
    ["\label{eq:1}x=y"].  The step deletes commands in brace form and
    nothing else: a text in which no command name is directly followed by
    an opening brace is left as it is, whatever other braces it has, and
    so is such a text in front of a command in brace form; a bare
    [\nonumber] stays, alone and beside [\frac{a}{b}]. *)
Theorem removeCommands_brace_form :
  (forall a name arg b : str,
     In name commandNames -> braceFree arg ->
     exists a1 a2 : str,
       a = a1 ++ a2 /\
       (a2 = [] \/
        exists name' arg',
          In name' commandNames /\ braceFree arg' /\
          a2 ++ braceCommand name arg = braceCommand name' arg') /\
       removeCommands (a ++ braceCommand name arg ++ b) =
       removeCommands a1 ++ removeCommands b)
  /\
  (forall name arg b : str,
     In name commandNames -> braceFree arg -> ~ In percent arg ->
     cleanLatexSyntax (braceCommand name arg ++ b) = cleanLatexSyntax b)
  /\
  cleanLatexSyntax (js "\label{eq:1}x=y") = js "x=y" /\
  (forall s : str, ~ In openBrace s -> removeCommands s = s) /\
  cleanLatexSyntax (js "\nonumber") = js "\nonumber"
  /\
  (forall s : str,
     exists (l : list deletion) (tail : str),
       Forall (fun d => In (cmdName d) commandNames /\ braceFree (cmdArg d)) l /\
       s = withCommands l tail /\
       removeCommands s = withoutCommands l tail)
  /\
  (forall s : str, noBraceForm s -> removeCommands s = s)
  /\
  (forall a name arg b : str,
     noBraceForm a -> In name commandNames -> braceFree arg ->
     removeCommands (a ++ braceCommand name arg ++ b) = a ++ removeCommands b)
  /\
  (forall s : str,
     ~ In percent s -> noBraceForm s ->
     cleanLatexSyntax s = trim (removeBlankLines s))
  /\
  cleanLatexSyntax (js "x \nonumber \\ \frac{a}{b}")
  = js "x \nonumber \\ \frac{a}{b}".
Proof.
  split; [|split; [|split; [|split; [|split; [|split; [|split;
    [|split; [|split]]]]]]]].
  - intros a name arg b Hn Ha.
    apply (removeCommands_occurrence (length a)); auto.
  - intros name arg b Hn Ha Hp. unfold cleanLatexSyntax.
    rewrite stripComments_app_free, removeCommands_head; auto.
    unfold braceCommand. intros H.
    repeat (apply in_app_or in H as [H|H]);
      try (destruct H as [H|[]]; discriminate); [|contradiction].
    apply (commandNames_letters name percent Hn) in H. cbv in H.
    destruct H as [H _]. apply H. reflexivity.
  - vm_compute. reflexivity.
  - apply removeCommands_id.
  - vm_compute. reflexivity.
  - intros s. apply (removeCommands_deletions (length s)). lia.
  - apply removeCommands_noBraceForm.
  - intros a name arg b. apply removeCommands_after_plain.
  - intros s Hp Hs. unfold cleanLatexSyntax.
    rewrite (stripComments_id s Hp), (removeCommands_noBraceForm s Hs).
    reflexivity.
  - vm_compute. reflexivity.
Qed.

Lemma removeCommands_brace_form_witness :
  (exists a1 a2 : str,
     js "x " = a1 ++ a2 /\
     (a2 = [] \/
      exists name' arg',
        In name' commandNames /\ braceFree arg' /\
        a2 ++ braceCommand (js "label") (js "eq:1") = braceCommand name' arg') /\
     removeCommands (js "x " ++ braceCommand (js "label") (js "eq:1") ++ js "y")
     = removeCommands a1 ++ removeCommands (js "y"))
  /\
  cleanLatexSyntax (braceCommand (js "label") (js "eq:1") ++ js "x=y")
  = cleanLatexSyntax (js "x=y")
  /\
  removeCommands (js "\nonumber") = js "\nonumber"
  /\
  removeCommands (js "x \nonumber \\ \frac{a}{b}")
  = js "x \nonumber \\ \frac{a}{b}"
  /\
  removeCommands (js "\nonumber \frac{a}{b} " ++
                  braceCommand (js "tag") (js "1") ++ js " \quad z")
  = js "\nonumber \frac{a}{b} " ++ removeCommands (js " \quad z")
  /\
  cleanLatexSyntax (js " \nonumber \frac{a}{b} ")
  = trim (removeBlankLines (js " \nonumber \frac{a}{b} ")).
Proof.
  split; [|split; [|split; [|split; [|split]]]].
  - apply (proj1 removeCommands_brace_form).
    + simpl. auto.
    + reflexivity.
  - apply (proj1 (proj2 removeCommands_brace_form)).
    + simpl. auto.
    + reflexivity.
    + vm_compute. intuition discriminate.
  - apply (proj1 (proj2 (proj2 (proj2 removeCommands_brace_form)))).
    vm_compute. intuition discriminate.
  - apply (proj1 (proj2 (proj2 (proj2 (proj2 (proj2 (proj2 removeCommands_brace_form))))))).
    apply hasBraceForm_false. vm_compute. reflexivity.
  - apply (proj1 (proj2 (proj2 (proj2 (proj2 (proj2 (proj2 (proj2 removeCommands_brace_form)))))))).
    + apply hasBraceForm_false. vm_compute. reflexivity.
    + simpl. auto.
    + reflexivity.
  - apply (proj1 (proj2 (proj2 (proj2 (proj2 (proj2 (proj2 (proj2 (proj2 removeCommands_brace_form))))))))).
    + vm_compute. intuition discriminate.
    + apply hasBraceForm_false. vm_compute. reflexivity.
Defined.

(** C4, as the specification states it, fails: the argument of
    ["\label{a%b}"] holds a [%], comment stripping cuts the command there,
    and the command name survives. *)
Lemma label_cut_by_comment :
  In (js "label") commandNames /\ braceFree (js "a%b") /\
  cleanLatexSyntax (braceCommand (js "label") (js "a%b")) = js "\label{a" /\
  cleanLatexSyntax (braceCommand (js "label") (js "a%b")) <> [].
Proof.
  split; [simpl; auto|]. split; [reflexivity|].
  split; vm_compute; [reflexivity|discriminate].
Qed.

(** C5. The text [writeOutputFile] writes: in every element each backslash
    becomes two, the element is then trimmed, that is, it loses its
    leading and trailing white space and nothing else, and the elements are
    joined with two line feeds between consecutive ones; ["a\b"] and ["c"]
    give ["a\\b"], two line feeds and ["c"], also when white space
    surrounds them. *)
Theorem writeOutputFile_text :
  (forall mathExpressions : list str,
     writeOutputFile mathExpressions =
     joinWith [10; 10]%N
              (map (fun expr => trim (doubleBackslashes expr)) mathExpressions))
  /\
  writeOutputFile [js "a\b"; js "c"] = js "a\\b" ++ [10; 10]%N ++ js "c"
  /\
  (forall s t : str, Trimmed s t <-> t = trim s)
  /\
  (forall mathExpressions : list str,
     exists written : list str,
       Forall2 (fun expr t => Trimmed (doubleBackslashes expr) t)
               mathExpressions written /\
       writeOutputFile mathExpressions = joinWith [10; 10]%N written)
  /\
  writeOutputFile [js "  a\b "; [9; 10]%N ++ js "c" ++ [13; 10]%N]
  = js "a\\b" ++ [10; 10]%N ++ js "c".
Proof.
  assert (H : forall l : list str,
             writeOutputFile l =
             joinWith [10; 10]%N
                      (map (fun expr => trim (doubleBackslashes expr)) l)).
  { intros l. unfold writeOutputFile. rewrite join_joinWith. f_equal.
    apply map_ext. intros e. rewrite escape_double. reflexivity. }
  split; [exact H|]. split; [vm_compute; reflexivity|].
  split; [|split; [|vm_compute; reflexivity]].
  - intros s t. split; [apply Trimmed_trim|intros ->; apply trim_Trimmed].
  - intros l. exists (map (fun expr => trim (doubleBackslashes expr)) l).
    split; [|apply H].
    induction l as [|e l IH]; constructor; [apply trim_Trimmed|exact IH].
Qed.

Lemma writeOutputFile_text_witness :
  Trimmed (js "  a\\b ") (js "a\\b") /\
  js "a\\b" = trim (js "  a\\b ").
Proof.
  split.
  - apply (proj2 (proj1 (proj2 (proj2 writeOutputFile_text))
                        (js "  a\\b ") (js "a\\b"))).
    reflexivity.
  - apply (proj1 (proj1 (proj2 (proj2 writeOutputFile_text))
                        (js "  a\\b ") (js "a\\b"))).
    exists (js "  "), (js " ").
    split; [reflexivity|]. split; [reflexivity|]. split; [reflexivity|].
    split.
    + intros c t' E. injection E as <- _. reflexivity.
    + intros t' c E.
      change (js "a\\b") with ([97; 92; 92]%N ++ [98%N]) in E.
      apply app_inj_tail in E as [_ <-]. reflexivity.
Defined.

(** C6, as the code has it.  [cleanLatexSyntax] applied to one of its
    results gives the result back whenever that result holds no command
    for command removal to delete. *)
Theorem clean_idempotent_when_settled :
  forall x : str,
    removeCommands (cleanLatexSyntax x) = cleanLatexSyntax x ->
    cleanLatexSyntax (cleanLatexSyntax x) = cleanLatexSyntax x.
Proof.
  intros x H. unfold cleanLatexSyntax at 1.
  rewrite (stripComments_id _ (clean_free x)), H.
  unfold removeBlankLines.
  change (replace blankLinePattern (cleanLatexSyntax x) [])
    with (eraseFrom blankLinePattern None (cleanLatexSyntax x)).
  rewrite (eraseBlank_stable _ _ (clean_stable x)).
  unfold cleanLatexSyntax. apply trim_trim.
Qed.

Lemma clean_idempotent_when_settled_witness :
  cleanLatexSyntax (cleanLatexSyntax (js "\label{eq:1}x=y")) =
  cleanLatexSyntax (js "\label{eq:1}x=y").
Proof.
  apply clean_idempotent_when_settled. vm_compute. reflexivity.
Defined.

(** C6, as the specification states it, fails: deleting the inner command
    of ["\la\label{x}bel{y}"] puts a new command together, which a second
    application deletes. *)
Lemma clean_not_idempotent :
  cleanLatexSyntax (js "\la\label{x}bel{y}") = js "\label{y}" /\
  cleanLatexSyntax (cleanLatexSyntax (js "\la\label{x}bel{y}")) = [] /\
  cleanLatexSyntax (cleanLatexSyntax (js "\la\label{x}bel{y}")) <>
  cleanLatexSyntax (js "\la\label{x}bel{y}").
Proof.
  split; [vm_compute; reflexivity|].
  split; [vm_compute; reflexivity|]. vm_compute. discriminate.
Qed.

(** C7. When none of the six delimiter conventions matches anywhere in the
    text, [extractMathExpressions] returns the empty array; the call
    returns, it does not throw. *)
Theorem extract_without_delimiters :
  forall s : str,
    (forall cv : convention, In cv conventions -> ~ conventionMatches cv s) ->
    extractMathExpressions s = [] /\
    extractMathExpressions_value (VString s) = Return [].
Proof.
  intros s H.
  assert (E : extractMathExpressions s = []).
  { rewrite extract_passes. apply flat_map_nil.
    intros pat Hpat. apply In_patterns in Hpat as (cv & Hcv & ->).
    unfold pass. destruct (matchAll (conventionPattern cv) s) as [|mt l] eqn:El;
      [reflexivity|].
    exfalso. apply (H cv Hcv).
    assert (Hin : In mt (matchAll (conventionPattern cv) s))
      by (rewrite El; left; reflexivity).
    apply matchAll_convention in Hin as (inner & Hd & _). exists inner. exact Hd. }
  split; [exact E|]. rewrite extract_value_string, E. reflexivity.
Qed.

Lemma extract_without_delimiters_witness :
  extractMathExpressions (js "x + y = z") = [] /\
  extractMathExpressions_value (VString (js "x + y = z")) = Return [].
Proof.
  apply extract_without_delimiters. intros cv Hcv Hm.
  destruct (conventionMatches_delimiter cv _ Hcv Hm) as [H|H];
    vm_compute in H; intuition discriminate.
Defined.

(** C9. No element of the array [extractMathExpressions] returns is the
    empty string: the text of every match holds its delimiters, and a
    match whose capture group is empty pushes that text; ["$$"] gives
    ["$$"]. *)
Theorem extract_elements_nonempty :
  (forall (s e : str), In e (extractMathExpressions s) -> e <> [])
  /\
  (forall (pat : pattern) (s : str) (mt : matchResult),
     In pat patterns -> In mt (matchAll pat s) ->
     (exists (cv : convention) (inner : str),
        In cv conventions /\ pat = conventionPattern cv /\
        m0 mt = opening cv ++ inner ++ closing cv) /\
     m0 mt <> [] /\
     (m1 mt = Some [] -> forall acc, push_match acc mt = acc ++ [m0 mt]))
  /\
  extractMathExpressions (js "$$") = [js "$$"].
Proof.
  split; [|split; [|vm_compute; reflexivity]].
  - intros s e. rewrite extract_passes, in_flat_map.
    intros (pat & _ & H). unfold pass in H. apply in_flat_map in H as (mt & _ & H).
    exact (pushed_nonempty mt e H).
  - intros pat s mt Hpat Hmt.
    pose proof (match_nonempty pat s mt Hpat Hmt) as Hne.
    split; [|split; [exact Hne|]].
    + apply In_patterns in Hpat as (cv & Hcv & ->).
      apply matchAll_convention in Hmt as (inner & _ & H0 & _).
      exists cv, inner. auto.
    + intros H1 acc. unfold push_match. rewrite H1.
      destruct (m0 mt); [contradiction|reflexivity].
Qed.

Lemma extract_elements_nonempty_witness :
  js "$$" <> [] /\
  forall acc : list str,
    push_match acc (Match (js "$$") (Some [])) = acc ++ [js "$$"].
Proof.
  split.
  - apply (proj1 extract_elements_nonempty (js "$$") (js "$$")).
    vm_compute. left. reflexivity.
  - apply (proj1 (proj2 extract_elements_nonempty)
                 dollarPattern (js "$$") (Match (js "$$") (Some []))).
    + simpl. auto.
    + vm_compute. left. reflexivity.
    + reflexivity.
Defined.

(** C10. [cleanLatexSyntax] never lengthens its input: none of its four
    steps adds a code unit. *)
Theorem clean_never_longer :
  forall s : str,
    length (stripComments s) <= length s /\
    length (removeCommands s) <= length s /\
    length (removeBlankLines s) <= length s /\
    length (trim s) <= length s /\
    length (cleanLatexSyntax s) <= length s.
Proof.
  assert (H : forall (p : pattern) (s : str),
             length (replace p s []) <= length s).
  { intros p s. apply erase_length. }
  intros s. repeat split; try apply H; try apply trim_length.
  unfold cleanLatexSyntax, removeBlankLines, removeCommands, stripComments.
  etransitivity; [apply trim_length|].
  etransitivity; [apply H|]. etransitivity; apply H.
Qed.

(** * Further properties of the code *)

(** ** Patterns without [^] *)

Section PrevFacts.
Variable p : pattern.

Lemma sameResult_refl_of (k k' : cont) :
  (forall x x', sameFrom x x' -> sameResult (k x) (k' x')) ->
  forall pv pv' t c, sameResult (k (State pv t c)) (k' (State pv' t c)).
Proof.
  intros H pv pv' t c. apply H. split; reflexivity.
Qed.

Lemma star_greedy_prev (a : atom) (k k' : cont) :
  (forall x x', sameFrom x x' -> sameResult (k x) (k' x')) ->
  forall (t : str) (pv pv' : option char) (c : option str),
    sameResult (star_greedy p a k pv t c) (star_greedy p a k' pv' t c).
Proof.
  intros Hk. induction t as [|d t IH]; intros pv pv' c; simpl.
  - apply sameResult_refl_of, Hk.
  - destruct (atomMatches p a d); [|apply sameResult_refl_of, Hk].
    specialize (IH (Some d) (Some d) c).
    destruct (star_greedy p a k (Some d) t c),
             (star_greedy p a k' (Some d) t c); simpl in IH; try contradiction.
    + exact IH.
    + apply sameResult_refl_of, Hk.
Qed.

Lemma star_lazy_prev (a : atom) (k k' : cont) :
  (forall x x', sameFrom x x' -> sameResult (k x) (k' x')) ->
  forall (t : str) (pv pv' : option char) (c : option str),
    sameResult (star_lazy p a k pv t c) (star_lazy p a k' pv' t c).
Proof.
  intros Hk. induction t as [|d t IH]; intros pv pv' c; simpl.
  - pose proof (sameResult_refl_of k k' Hk pv pv' [] c) as H.
    destruct (k (State pv [] c)), (k' (State pv' [] c));
      simpl in H; try contradiction; simpl; auto.
  - pose proof (sameResult_refl_of k k' Hk pv pv' (d :: t) c) as H.
    destruct (k (State pv (d :: t) c)), (k' (State pv' (d :: t) c));
      simpl in H; try contradiction; simpl; auto.
    destruct (atomMatches p a d); simpl; auto.
Qed.

(** Without [^] the matcher does not look at what precedes the position. *)
Lemma m_prev (r : regex) :
  noBol r = true ->
  forall k k' : cont,
    (forall x x', sameFrom x x' -> sameResult (k x) (k' x')) ->
    forall x x', sameFrom x x' -> sameResult (m p r k x) (m p r k' x').
Proof.
  induction r as [a|g a|r1 IH1 r2 IH2|r1 IH1 r2 IH2|r1 IH1| | |];
    intros Hr k k' Hk [pv t c] [pv' t' c'] [Ht Hc]; simpl in Ht, Hc;
    subst t' c'; simpl in Hr.
  - simpl. destruct t as [|d t]; simpl; auto.
    destruct (atomMatches p a d); simpl; auto.
    apply Hk. split; reflexivity.
  - simpl. destruct g; [apply star_greedy_prev|apply star_lazy_prev]; exact Hk.
  - apply andb_prop in Hr as [H1 H2]. simpl.
    apply IH1; [exact H1| |split; reflexivity].
    intros y y' Hy. apply IH2; assumption.
  - apply andb_prop in Hr as [H1 H2]. simpl.
    pose proof (IH1 H1 k k' Hk (State pv t c) (State pv' t c)
                    (conj eq_refl eq_refl)) as E1.
    destruct (m p r1 k (State pv t c)), (m p r1 k' (State pv' t c));
      simpl in E1; try contradiction; simpl; auto.
    apply IH2; [exact H2|exact Hk|split; reflexivity].
  - simpl. apply IH1; [exact Hr| |split; reflexivity].
    intros [pw u d] [pw' u' d'] [Hu Hd]. simpl in Hu, Hd. subst u' d'.
    apply Hk. split; reflexivity.
  - discriminate.
  - simpl. unfold atLineEnd. simpl. destruct t as [|d t].
    + apply Hk. split; reflexivity.
    + destruct (multiline p && isLineTerminator d); simpl; auto.
      apply Hk. split; reflexivity.
  - simpl. apply Hk. split; reflexivity.
Qed.

Hypothesis Hp : noBol (body p) = true.

Lemma matchAt_prev (pv pv' : option char) (t : str) :
  matchAt p pv t = matchAt p pv' t.
Proof.
  unfold matchAt.
  pose proof (m_prev (body p) Hp (fun y => Some y) (fun y => Some y)
                     (fun x x' H => H)
                     (State pv t None) (State pv' t None)
                     (conj eq_refl eq_refl)) as H.
  destruct (m p (body p) _ (State pv t None)) as [[pw u c]|],
           (m p (body p) _ (State pv' t None)) as [[pw' u' c']|];
    simpl in H; try contradiction; auto.
  destruct H as [Hu Hc]. simpl in Hu, Hc. subst u' c'. reflexivity.
Qed.

Lemma scan_prev (t : str) :
  forall (pv pv' : option char) (n : nat), scan p pv t n = scan p pv' t n.
Proof.
  induction t as [|c t IH]; intros pv pv' n; destruct n as [|n]; simpl;
    try rewrite (matchAt_prev pv pv'); reflexivity.
Qed.

End PrevFacts.

(** ** One step of a global scan *)

Lemma scan_step (p : pattern) (pv : option char) (t : str) :
  scan p pv t 0 =
  match matchAt p pv t with
  | Some r =>
      Hit r ::
      match m0 r with
      | [] =>
          match t with
          | [] => []
          | c :: t' => Gap c :: scan p (Some c) t' 0
          end
      | _ :: _ => scan p (prevAfter pv (m0 r)) (skipn (length (m0 r)) t) 0
      end
  | None =>
      match t with
      | [] => []
      | c :: t' => Gap c :: scan p (Some c) t' 0
      end
  end.
Proof.
  destruct t as [|c t].
  - rewrite scan_nil_0. destruct (matchAt p pv []) as [r|] eqn:E; auto.
    apply matchAt_prefix in E as (n & _ & E & _).
    rewrite E. destruct n; reflexivity.
  - rewrite scan_cons_0.
    destruct (matchAt p pv (c :: t)) as [r|] eqn:E; [|reflexivity].
    apply matchAt_prefix in E as (n & Hn & E & El).
    rewrite El, E. f_equal. destruct n as [|n]; [reflexivity|].
    simpl in Hn. cbn [firstn]. rewrite scan_skip by lia. reflexivity.
Qed.

(** A match at some position of the input makes the scan find a match. *)
Lemma scan_finds (p : pattern) (t : str) :
  (forall pv, matchAt p pv t <> None) ->
  forall (a : str) (pv : option char), hits (scan p pv (a ++ t) 0) <> [].
Proof.
  intros Ht. induction a as [|c a IH]; intros pv.
  - simpl app. rewrite scan_step. specialize (Ht pv).
    destruct (matchAt p pv t); [discriminate|contradiction].
  - change ((c :: a) ++ t) with (c :: a ++ t). rewrite scan_cons_0.
    destruct (matchAt p pv (c :: a ++ t)); [discriminate|]. apply IH.
Qed.

(** ** Matching a delimiter convention *)

Lemma noBol_lits (l : str) : noBol (lits l) = true.
Proof.
  induction l as [|c l IH]; simpl; auto.
Qed.

Lemma noBol_convention (cv : convention) :
  noBol (body (conventionPattern cv)) = true.
Proof.
  unfold conventionPattern. cbn [body seq fold_right noBol].
  rewrite !noBol_lits. destruct (captures cv); reflexivity.
Qed.

Lemma closing_nonempty (cv : convention) :
  In cv conventions -> closing cv <> [].
Proof.
  intros H. each_member H ltac:(cbv; discriminate).
Qed.

Lemma star_lazy_unfold (p : pattern) (a : atom) (k : cont)
      (pv : option char) (t : str) (c : option str) :
  star_lazy p a k pv t c =
  match k (State pv t c) with
  | Some y => Some y
  | None =>
      match t with
      | d :: t' =>
          if atomMatches p a d then star_lazy p a k (Some d) t' c else None
      | [] => None
      end
  end.
Proof.
  destruct t; reflexivity.
Qed.

(** A lazy repetition succeeds when the continuation does after some run
    of the atom. *)
Lemma star_lazy_complete (p : pattern) (a : atom) (k : cont) (t' : str)
      (c : option str) :
  (forall pv', k (State pv' t' c) <> None) ->
  forall (u : str) (pv : option char),
    forallb (atomMatches p a) u = true ->
    star_lazy p a k pv (u ++ t') c <> None.
Proof.
  intros Hk. induction u as [|d u IH]; intros pv Hu; rewrite star_lazy_unfold.
  - simpl app. specialize (Hk pv).
    destruct (k (State pv t' c)); [discriminate|contradiction].
  - simpl in Hu. apply andb_prop in Hu as [Hd Hu].
    destruct (k (State pv ((d :: u) ++ t') c)); [discriminate|].
    change ((d :: u) ++ t') with (d :: u ++ t'). cbv iota.
    rewrite Hd. apply IH. exact Hu.
Qed.

(** A lazy repetition stops at the first position where the continuation
    succeeds. *)
Lemma star_lazy_exact (p : pattern) (a : atom) (k : cont) (t' : str)
      (c : option str) :
  forall (u : str) (pv : option char) (y : state),
    forallb (atomMatches p a) u = true ->
    (forall u1 d u2 pv', u = u1 ++ d :: u2 ->
                         k (State pv' (d :: u2 ++ t') c) = None) ->
    k (State (prevAfter pv u) t' c) = Some y ->
    star_lazy p a k pv (u ++ t') c = Some y.
Proof.
  induction u as [|d u IH]; intros pv y Hu Hmiss Hy; rewrite star_lazy_unfold.
  - simpl app. simpl in Hy. rewrite Hy. reflexivity.
  - simpl in Hu. apply andb_prop in Hu as [Hd Hu].
    change ((d :: u) ++ t') with (d :: u ++ t').
    rewrite (Hmiss [] d u pv eq_refl). cbv iota. rewrite Hd.
    apply IH; [exact Hu| |exact Hy].
    intros u1 e u2 pv' E. apply (Hmiss (d :: u1) e u2 pv').
    rewrite E. reflexivity.
Qed.

Lemma sameLine_dot (cv : convention) (inner : str) :
  (multiLine cv = false -> sameLine inner) ->
  forallb (atomMatches (conventionPattern cv) Dot) inner = true.
Proof.
  intros H. destruct (multiLine cv) eqn:E.
  - clear H. induction inner as [|c inner IH]; [reflexivity|].
    cbn [forallb atomMatches dotAll conventionPattern]. rewrite E.
    exact IH.
  - specialize (H eq_refl). unfold sameLine in H. rewrite <- H.
    clear H. induction inner as [|c inner IH]; [reflexivity|].
    cbn [forallb atomMatches dotAll conventionPattern]. rewrite E, IH.
    reflexivity.
Qed.

Lemma stripPrefix_head (l t : str) (d : char) :
  l <> [] -> d <> tokenHead l -> stripPrefix l (d :: t) = None.
Proof.
  destruct l as [|c l]; [contradiction|]. simpl. intros _ H.
  apply N.eqb_neq in H. rewrite H. reflexivity.
Qed.

(** An occurrence of a convention at the head of the input is matched. *)
Lemma matchAt_convention_complete (cv : convention) (inner b : str) :
  (multiLine cv = false -> sameLine inner) ->
  forall pv,
    matchAt (conventionPattern cv) pv
            (opening cv ++ inner ++ closing cv ++ b) <> None.
Proof.
  intros Hl pv. unfold matchAt.
  destruct (m (conventionPattern cv) (body (conventionPattern cv)) _ _)
    as [y|] eqn:E; [discriminate|]. exfalso. revert E.
  unfold conventionPattern at 2. cbn [body seq fold_right m].
  rewrite m_lits. cbn [rest prev cap].
  rewrite (proj2 (stripPrefix_Some _ _ (inner ++ closing cv ++ b)) eq_refl).
  apply sameLine_dot in Hl.
  destruct (captures cv); cbn [m prev rest cap];
    apply star_lazy_complete; try exact Hl; intros pv'; cbn [prev rest];
    rewrite m_lits; cbn [rest prev cap m];
    rewrite (proj2 (stripPrefix_Some _ _ b) eq_refl); discriminate.
Qed.

(** When the first code unit of the closing token does not occur in the
    inner text, the match ends at that closing token. *)
Lemma matchAt_convention_exact (cv : convention) (inner b : str)
      (pv : option char) :
  In cv conventions ->
  ~ In (tokenHead (closing cv)) inner ->
  (multiLine cv = false -> sameLine inner) ->
  matchAt (conventionPattern cv) pv (opening cv ++ inner ++ closing cv ++ b) =
  Some (Match (opening cv ++ inner ++ closing cv)
              (if captures cv then Some inner else None)).
Proof.
  intros Hcv Hin Hl. apply closing_nonempty in Hcv.
  assert (Hmiss : forall u1 d u2, inner = u1 ++ d :: u2 ->
                                  d <> tokenHead (closing cv)).
  { intros u1 d u2 E Hd. apply Hin. rewrite E, <- Hd.
    apply in_or_app. right. left. reflexivity. }
  apply sameLine_dot in Hl.
  assert (Hlen : firstn (length (opening cv ++ inner ++ closing cv ++ b)
                         - length b)
                        (opening cv ++ inner ++ closing cv ++ b)
                 = opening cv ++ inner ++ closing cv).
  { replace (opening cv ++ inner ++ closing cv ++ b)
      with ((opening cv ++ inner ++ closing cv) ++ b)
      by (rewrite <- !app_assoc; reflexivity).
    apply firstn_app_length. }
  unfold matchAt. unfold conventionPattern at 2. cbn [body seq fold_right m].
  rewrite m_lits. cbn [rest prev cap].
  rewrite (proj2 (stripPrefix_Some _ _ (inner ++ closing cv ++ b)) eq_refl).
  destruct (captures cv); cbn [m prev rest cap].
  - rewrite (star_lazy_exact _ _ _ _ _ inner _
               (State (prevAfter (prevAfter (prevAfter pv (opening cv)) inner)
                                 (closing cv)) b (Some inner))).
    + cbn [rest cap]. rewrite Hlen. reflexivity.
    + exact Hl.
    + intros u1 d u2 pv' E. cbn [prev rest]. rewrite m_lits.
      cbn [rest prev cap m]. rewrite stripPrefix_head; eauto.
    + cbn [prev rest]. rewrite m_lits. cbn [rest prev cap m].
      rewrite (proj2 (stripPrefix_Some _ _ b) eq_refl).
      unfold consumed. cbn [rest]. rewrite firstn_app_length. reflexivity.
  - rewrite (star_lazy_exact _ _ _ _ _ inner _
               (State (prevAfter (prevAfter (prevAfter pv (opening cv)) inner)
                                 (closing cv)) b None)).
    + cbn [rest cap]. rewrite Hlen. reflexivity.
    + exact Hl.
    + intros u1 d u2 pv' E. rewrite m_lits.
      cbn [rest prev cap m]. rewrite stripPrefix_head; eauto.
    + rewrite m_lits. cbn [rest prev cap m].
      rewrite (proj2 (stripPrefix_Some _ _ b) eq_refl). reflexivity.
Qed.

(** No match starts at a code unit other than the first of the opening
    token. *)
Lemma matchAt_convention_miss (cv : convention) (pv : option char)
      (d : char) (t : str) :
  In cv conventions -> d <> tokenHead (opening cv) ->
  matchAt (conventionPattern cv) pv (d :: t) = None.
Proof.
  intros Hcv Hd. apply opening_nonempty in Hcv.
  unfold matchAt. unfold conventionPattern at 2. cbn [body seq fold_right m].
  rewrite m_lits. cbn [rest]. rewrite stripPrefix_head by assumption.
  reflexivity.
Qed.

(** ** The passes on delimited text *)

Lemma hits_from (cv : convention) (pv : option char) (s : str) :
  hits (scan (conventionPattern cv) pv s 0) = matchAll (conventionPattern cv) s.
Proof.
  unfold matchAll. f_equal. apply scan_prev, noBol_convention.
Qed.

Lemma pass_skip (cv : convention) (d : char) (s : str) :
  In cv conventions -> d <> tokenHead (opening cv) ->
  pass (conventionPattern cv) (d :: s) = pass (conventionPattern cv) s.
Proof.
  intros Hcv Hd. unfold pass, matchAll at 1.
  rewrite scan_cons_0, matchAt_convention_miss by assumption.
  cbn [hits flat_map app]. fold (hits (scan (conventionPattern cv) (Some d) s 0)).
  rewrite hits_from. reflexivity.
Qed.

Lemma pass_prefix (cv : convention) (a s : str) :
  In cv conventions -> ~ In (tokenHead (opening cv)) a ->
  pass (conventionPattern cv) (a ++ s) = pass (conventionPattern cv) s.
Proof.
  intros Hcv. induction a as [|d a IH]; intros Ha; [reflexivity|].
  cbn [app]. rewrite pass_skip; auto.
  - apply IH. intros H. apply Ha. right. exact H.
  - intros H. apply Ha. left. exact H.
Qed.

Lemma pushed_delimited (cv : convention) (inner : str) :
  In cv conventions ->
  pushed (Match (opening cv ++ inner ++ closing cv)
                (if captures cv then Some inner else None))
  = [delimitedResult cv inner].
Proof.
  intros Hcv. apply opening_nonempty in Hcv.
  unfold pushed, push_match, delimitedResult. cbn [m0 m1].
  destruct (captures cv); [destruct inner|];
    destruct (opening cv); try contradiction; reflexivity.
Qed.

Lemma pass_delimited (cv : convention) (inner b : str) :
  In cv conventions ->
  ~ In (tokenHead (closing cv)) inner ->
  (multiLine cv = false -> sameLine inner) ->
  pass (conventionPattern cv) (opening cv ++ inner ++ closing cv ++ b)
  = delimitedResult cv inner :: pass (conventionPattern cv) b.
Proof.
  intros Hcv Hin Hl. unfold pass at 1, matchAll.
  rewrite scan_step, matchAt_convention_exact by assumption. cbn [m0].
  pose proof (opening_nonempty cv Hcv) as Ho.
  destruct (opening cv ++ inner ++ closing cv) as [|c0 w] eqn:E.
  { destruct (opening cv); [contradiction|discriminate]. }
  rewrite <- E.
  replace (opening cv ++ inner ++ closing cv ++ b)
    with ((opening cv ++ inner ++ closing cv) ++ b)
    by (rewrite <- !app_assoc; reflexivity).
  rewrite skipn_app_length.
  cbn [hits flat_map app].
  fold (hits (scan (conventionPattern cv)
                   (prevAfter None (opening cv ++ inner ++ closing cv)) b 0)).
  rewrite hits_from.
  change (flat_map pushed
            (Match (opening cv ++ inner ++ closing cv)
                   (if captures cv then Some inner else None)
             :: matchAll (conventionPattern cv) b))
    with (pushed (Match (opening cv ++ inner ++ closing cv)
                        (if captures cv then Some inner else None))
          ++ pass (conventionPattern cv) b).
  rewrite pushed_delimited by assumption. reflexivity.
Qed.

Lemma pass_first_delimited (cv : convention) (a inner b : str) :
  In cv conventions ->
  ~ In (tokenHead (opening cv)) a ->
  ~ In (tokenHead (closing cv)) inner ->
  (multiLine cv = false -> sameLine inner) ->
  pass (conventionPattern cv) (a ++ opening cv ++ inner ++ closing cv ++ b)
  = delimitedResult cv inner :: pass (conventionPattern cv) b.
Proof.
  intros Hcv Ha Hin Hl. rewrite pass_prefix by assumption.
  apply pass_delimited; assumption.
Qed.

Lemma pass_nil (cv : convention) :
  In cv conventions -> pass (conventionPattern cv) [] = [].
Proof.
  intros H. each_member H ltac:(vm_compute; reflexivity).
Qed.

Lemma pass_none (cv : convention) (s : str) :
  In cv conventions -> ~ In (tokenHead (opening cv)) s ->
  pass (conventionPattern cv) s = [].
Proof.
  intros Hcv Hs. rewrite <- (app_nil_r s), pass_prefix by assumption.
  apply pass_nil. exact Hcv.
Qed.

Lemma pass_nonempty (cv : convention) (s : str) :
  In cv conventions -> conventionMatches cv s ->
  pass (conventionPattern cv) s <> [].
Proof.
  intros Hcv (inner & a & b & -> & Hl). unfold pass, matchAll.
  pose proof (scan_finds (conventionPattern cv)
                _ (matchAt_convention_complete cv inner b Hl) a None) as Hne.
  fold (matchAll (conventionPattern cv)
                 (a ++ opening cv ++ inner ++ closing cv ++ b)) in Hne |- *.
  destruct (matchAll (conventionPattern cv) _) as [|mt l] eqn:E;
    [contradiction|].
  assert (Hm : m0 mt <> []).
  { apply (match_nonempty (conventionPattern cv)
                          (a ++ opening cv ++ inner ++ closing cv ++ b)).
    - rewrite patterns_conventions. apply in_map. exact Hcv.
    - rewrite E. left. reflexivity. }
  cbn [flat_map]. unfold pushed at 1, push_match.
  destruct (m1 mt) as [[|c g]|]; destruct (m0 mt); try contradiction;
    discriminate.
Qed.

(** ** More on trimming *)

Lemma backslash_notSpace : isSpace backslash = false.
Proof.
  reflexivity.
Qed.

Lemma double_dropWhile (e : str) :
  dropWhile isSpace (doubleBackslashes e) =
  doubleBackslashes (dropWhile isSpace e).
Proof.
  induction e as [|c e IH]; [reflexivity|].
  cbn [doubleBackslashes flat_map dropWhile].
  destruct (N.eqb_spec c backslash) as [->|Hne].
  - rewrite backslash_notSpace. cbn [app dropWhile].
    rewrite backslash_notSpace. cbn [doubleBackslashes flat_map].
    rewrite N.eqb_refl. reflexivity.
  - cbn [app dropWhile]. destruct (isSpace c); [exact IH|].
    cbn [doubleBackslashes flat_map]. apply N.eqb_neq in Hne.
    rewrite Hne. reflexivity.
Qed.

Lemma double_rev (e : str) :
  rev (doubleBackslashes e) = doubleBackslashes (rev e).
Proof.
  unfold doubleBackslashes. induction e as [|c e IH]; [reflexivity|].
  cbn [flat_map rev]. rewrite rev_app_distr, IH, flat_map_app.
  cbn [flat_map]. rewrite app_nil_r.
  destruct (N.eqb c backslash); reflexivity.
Qed.

Lemma double_trim (e : str) :
  trim (doubleBackslashes e) = doubleBackslashes (trim e).
Proof.
  unfold trim, trimEnd, trimStart.
  rewrite double_dropWhile, double_rev, double_dropWhile, double_rev.
  reflexivity.
Qed.

Lemma double_injective (e1 : str) :
  forall e2 : str, doubleBackslashes e1 = doubleBackslashes e2 -> e1 = e2.
Proof.
  induction e1 as [|c e1 IH]; intros [|d e2];
    cbn [doubleBackslashes flat_map].
  - reflexivity.
  - destruct (N.eqb d backslash); discriminate.
  - destruct (N.eqb c backslash); discriminate.
  - fold (doubleBackslashes e1). fold (doubleBackslashes e2).
    destruct (N.eqb_spec c backslash) as [->|Hc];
      destruct (N.eqb_spec d backslash) as [->|Hd]; cbn [app]; intros H.
    + injection H as H. f_equal. apply IH. exact H.
    + injection H as H _. congruence.
    + injection H as H _. congruence.
    + injection H as -> H. f_equal. apply IH. exact H.
Qed.

Lemma double_In (c : char) (e : str) :
  In c (doubleBackslashes e) -> In c e.
Proof.
  unfold doubleBackslashes. rewrite in_flat_map. intros (d & Hd & H).
  destruct (N.eqb_spec d backslash) as [->|Hne]; simpl in H.
  - destruct H as [<-|[<-|[]]]; exact Hd.
  - destruct H as [<-|[]]. exact Hd.
Qed.

Lemma joinWith_In (c : char) (sep : str) (l : list str) :
  In c (joinWith sep l) -> In c sep \/ exists e, In e l /\ In c e.
Proof.
  induction l as [|e l IH]; [intros []|].
  rewrite joinWith_cons. intros H. apply in_app_or in H as [H|H].
  - right. exists e. split; [left; reflexivity|exact H].
  - apply in_flat_map in H as (e' & He' & H).
    apply in_app_or in H as [H|H]; [left; exact H|].
    right. exists e'. split; [right; exact He'|exact H].
Qed.

(** ** Deleting code units *)

Lemma Subseq_refl (s : str) : Subseq s s.
Proof.
  induction s; constructor; assumption.
Qed.

Lemma Subseq_trans (v : str) :
  forall u w : str, Subseq u v -> Subseq v w -> Subseq u w.
Proof.
  intros u w Huv Hvw. revert u Huv.
  induction Hvw as [|c v w Hvw IH|c v w Hvw IH]; intros u Huv.
  - exact Huv.
  - inversion Huv; subst; constructor; apply IH; assumption.
  - constructor. apply IH. exact Huv.
Qed.

Lemma Subseq_app_l (u w : str) : Subseq u (u ++ w).
Proof.
  induction u as [|c u IH]; simpl.
  - induction w; constructor; assumption.
  - constructor. exact IH.
Qed.

Lemma Subseq_app_r (u w : str) : Subseq w (u ++ w).
Proof.
  induction u as [|c u IH]; simpl.
  - apply Subseq_refl.
  - constructor. exact IH.
Qed.

Lemma Subseq_trim (s : str) : Subseq (trim s) s.
Proof.
  unfold trim. apply (Subseq_trans (trimStart s)).
  - destruct (trimEnd_prefix (trimStart s)) as (w & E).
    rewrite E at 2. apply Subseq_app_l.
  - unfold trimStart.
    rewrite <- (takeWhile_dropWhile isSpace s) at 2. apply Subseq_app_r.
Qed.

Lemma Subseq_erase (p : pattern) (t : str) :
  forall (pv : option char) (n : nat),
    Subseq (flat_map (subst []) (scan p pv t n)) t.
Proof.
  induction t as [|c t IH]; intros pv n; destruct n as [|n]; simpl.
  - destruct (matchAt p pv []); simpl; constructor.
  - constructor.
  - destruct (matchAt p pv (c :: t)) as [r|]; simpl.
    + destruct (length (m0 r)); simpl; constructor; apply IH.
    + constructor. apply IH.
  - constructor. apply IH.
Qed.

(** ** Matches of one scan do not overlap *)

Lemma hits_length (p : pattern) (t : str) :
  forall (pv : option char) (n : nat),
    n <= length t ->
    list_sum (map (fun r => length (m0 r)) (hits (scan p pv t n))) + n
    <= length t.
Proof.
  induction t as [|c t IH]; intros pv n Hn; destruct n as [|n].
  - rewrite scan_nil_0. destruct (matchAt p pv []) as [r|] eqn:E; simpl; auto.
    apply matchAt_prefix in E as (k & Hk & _ & El). simpl in Hk. lia.
  - simpl in Hn. lia.
  - rewrite scan_cons_0.
    destruct (matchAt p pv (c :: t)) as [r|] eqn:E.
    + apply matchAt_prefix in E as (k & Hk & _ & El). rewrite El.
      simpl in Hk. destruct k as [|k]; cbn [hits flat_map app map list_sum];
        rewrite El.
      * specialize (IH (Some c) 0 (Nat.le_0_l _)).
        fold (hits (scan p (Some c) t 0)). simpl. lia.
      * assert (Hk' : k <= length t) by lia.
        specialize (IH (Some c) k Hk').
        fold (hits (scan p (Some c) t k)). simpl. lia.
    + cbn [hits flat_map app]. fold (hits (scan p (Some c) t 0)).
      specialize (IH (Some c) 0 (Nat.le_0_l _)). simpl. lia.
  - simpl in Hn. simpl scan. assert (Hn' : n <= length t) by lia.
    specialize (IH (Some c) n Hn'). simpl. lia.
Qed.

Lemma pushed_length (mt : matchResult) (cv : convention) (inner : str) :
  m0 mt = opening cv ++ inner ++ closing cv ->
  m1 mt = (if captures cv then Some inner else None) ->
  list_sum (map (@length char) (pushed mt)) <= length (m0 mt).
Proof.
  intros H0 H1.
  assert (Hlen : length inner <= length (m0 mt))
    by (rewrite H0, !length_app; lia).
  unfold pushed, push_match. rewrite H1.
  destruct (captures cv); [destruct inner as [|c g]|];
    destruct (m0 mt); simpl in *; lia.
Qed.

Lemma flat_map_pushed_length (l : list matchResult) :
  (forall mt, In mt l ->
              list_sum (map (@length char) (pushed mt)) <= length (m0 mt)) ->
  list_sum (map (@length char) (flat_map pushed l))
  <= list_sum (map (fun r => length (m0 r)) l).
Proof.
  induction l as [|mt l IH]; intros H; [simpl; lia|].
  cbn [flat_map map list_sum fold_right]. rewrite map_app, list_sum_app.
  fold (list_sum (map (fun r => length (m0 r)) l)).
  pose proof (H mt (or_introl eq_refl)) as Hmt.
  assert (Hl : list_sum (map (@length char) (flat_map pushed l))
               <= list_sum (map (fun r => length (m0 r)) l)).
  { apply IH. intros mt' Hin. apply H. right. exact Hin. }
  apply Nat.add_le_mono; assumption.
Qed.

(** ** The blank-line pattern on one line *)

Lemma blankEnd_run (w : str) (d : char) (b : str) :
  forallb isSpace w = true -> isBreak d = true ->
  blankEnd (w ++ d :: b) <> None.
Proof.
  intros Hw Hd. induction w as [|c w IH]; simpl.
  - rewrite (isBreak_isSpace d Hd), Hd. destruct (blankEnd b); discriminate.
  - simpl in Hw. apply andb_prop in Hw as [Hc Hw]. rewrite Hc.
    destruct (blankEnd (w ++ d :: b)); [discriminate|].
    exfalso. apply (IH Hw). reflexivity.
Qed.

Lemma blankEnd_no_break (t : str) :
  forallb (fun c => negb (isBreak c)) t = true -> blankEnd t = None.
Proof.
  intros H. destruct (blankEnd t) as [r|] eqn:E; [|reflexivity].
  apply blankEnd_sound in E as (u & d & -> & Hd).
  rewrite forallb_app in H. apply andb_prop in H as [_ H].
  simpl in H. rewrite Hd in H. discriminate.
Qed.

Lemma stable_no_break (t : str) :
  forall pv : option char,
    forallb (fun c => negb (isBreak c)) t = true -> stable pv t = true.
Proof.
  induction t as [|c t IH]; intros pv H; [apply stable_nil|].
  cbn [stable]. rewrite (blankEnd_no_break _ H). cbn [isNone].
  rewrite orb_true_r. cbn [andb]. apply IH.
  simpl in H. apply andb_prop in H as [_ H]. exact H.
Qed.

Lemma writeOutputFile_joinWith (l : list str) :
  writeOutputFile l =
  joinWith [10; 10]%N (map (fun e => trim (doubleBackslashes e)) l).
Proof.
  unfold writeOutputFile. rewrite join_joinWith. f_equal.
  apply map_ext. intros e. rewrite escape_double. reflexivity.
Qed.

Lemma removeBlankLines_stable (s : str) :
  stable None s = true -> removeBlankLines s = s.
Proof.
  apply (eraseBlank_stable s None).
Qed.

(** ** The command line of [convertWordToLatex] *)

Lemma first_unique (q : char) (x1 : str) :
  forall x2 y1 y2 : str,
    ~ In q x1 -> ~ In q x2 ->
    x1 ++ q :: y1 = x2 ++ q :: y2 -> x1 = x2 /\ y1 = y2.
Proof.
  induction x1 as [|c x1 IH]; intros [|d x2] y1 y2 H1 H2 E; simpl in *.
  - injection E as ->. auto.
  - injection E as <- _. exfalso. apply H2. left. reflexivity.
  - injection E as -> _. exfalso. apply H1. left. reflexivity.
  - injection E as -> E.
    destruct (IH x2 y1 y2) as [-> ->]; auto.
Qed.

(** ** Elements that the separator cannot cut *)

Lemma separable_tail (c : char) (t : str) :
  separable (c :: t) = true -> separable t = true.
Proof.
  destruct t as [|d t]; [reflexivity|].
  cbn [separable]. intros H. apply andb_prop in H as [_ H]. exact H.
Qed.

Lemma separable_split (e : str) :
  forall e' R R' : str,
    separable e = true -> separable e' = true ->
    afterElement R -> afterElement R' ->
    e ++ R = e' ++ R' -> e = e' /\ R = R'.
Proof.
  assert (Hcut : forall (c : char) (t R R' : str),
             separable (c :: t) = true -> afterElement R ->
             R = (c :: t) ++ R' -> False).
  { intros c t R R' Hs [->|(R0 & ->)] E; [discriminate|].
    injection E as <- E. destruct t as [|d t].
    - discriminate.
    - injection E as <- _. discriminate. }
  induction e as [|c e IH]; intros [|c' e'] R R' He He' HR HR' E.
  - auto.
  - exfalso. exact (Hcut c' e' R R' He' HR E).
  - exfalso. symmetry in E. exact (Hcut c e R' R He HR' E).
  - injection E as -> E.
    destruct (IH e' R R' (separable_tail _ _ He) (separable_tail _ _ He')
                 HR HR' E) as [-> ->].
    auto.
Qed.

Lemma double_head (e : str) :
  hd_error (doubleBackslashes e) = hd_error e.
Proof.
  destruct e as [|c e]; [reflexivity|].
  cbn [doubleBackslashes flat_map].
  destruct (N.eqb_spec c backslash) as [->|Hne]; reflexivity.
Qed.

Lemma separable_cons (c : char) (t : str) :
  separable (c :: t) =
  match hd_error t with
  | None => negb (N.eqb c 10)
  | Some d => negb (N.eqb c 10 && N.eqb d 10) && separable t
  end.
Proof.
  destruct t; reflexivity.
Qed.

Lemma separable_double (e : str) :
  separable e = true -> separable (doubleBackslashes e) = true.
Proof.
  induction e as [|c e IH]; intros H; [reflexivity|].
  pose proof (separable_tail _ _ H) as Ht. specialize (IH Ht).
  rewrite separable_cons in H.
  change (doubleBackslashes (c :: e))
    with ((if N.eqb c backslash then [backslash; backslash] else [c])
          ++ doubleBackslashes e).
  destruct (N.eqb_spec c backslash) as [->|Hne]; cbn [app].
  - rewrite separable_cons. cbn [hd_error].
    change (N.eqb backslash 10) with false. cbn [andb negb].
    rewrite separable_cons, double_head.
    change (N.eqb backslash 10) with false. cbn [andb negb].
    destruct (hd_error e); [exact IH|reflexivity].
  - rewrite separable_cons, double_head.
    destruct (hd_error e); [|exact H].
    apply andb_prop in H as [H _]. rewrite H. exact IH.
Qed.

Lemma separable_of (e : str) :
  (forall a b, e <> a ++ 10%N :: 10%N :: b) ->
  (forall a, e <> a ++ [10%N]) ->
  separable e = true.
Proof.
  induction e as [|c e IH]; intros H2 H1; [reflexivity|].
  assert (IHe : separable e = true).
  { apply IH.
    - intros a b E. apply (H2 (c :: a) b). rewrite E. reflexivity.
    - intros a E. apply (H1 (c :: a)). rewrite E. reflexivity. }
  rewrite separable_cons. destruct e as [|d e]; cbn [hd_error].
  - destruct (N.eqb_spec c 10) as [->|Hne]; [|reflexivity].
    exfalso. apply (H1 []). reflexivity.
  - rewrite IHe, andb_true_r.
    destruct (N.eqb_spec c 10) as [->|Hc]; [|reflexivity].
    destruct (N.eqb_spec d 10) as [->|Hd]; [|reflexivity].
    exfalso. apply (H2 [] e). reflexivity.
Qed.

(** A text in which the blank-line pattern matches nowhere has no line
    terminator followed by white space up to a line break. *)
Lemma stable_no_blank_line (e a w b : str) (c d : char) :
  stable None e = true ->
  e = a ++ c :: w ++ d :: b ->
  isLineTerminator c = true -> forallb isSpace w = true ->
  isBreak d = false.
Proof.
  intros H E Hc Hw. rewrite E in H.
  replace (a ++ c :: w ++ d :: b) with ((a ++ [c]) ++ w ++ d :: b) in H
    by (rewrite <- app_assoc; reflexivity).
  apply stable_suffix in H. rewrite prevAfter_app in H.
  cbn [prevAfter fold_left] in H.
  destruct (isBreak d) eqn:Hd; [|reflexivity]. exfalso.
  pose proof (blankEnd_run w d b Hw Hd) as Hne.
  destruct (w ++ d :: b) as [|c0 t0] eqn:Et;
    [destruct w; discriminate|].
  cbn [stable lineStart] in H. rewrite Hc in H. cbn [negb orb] in H.
  destruct (blankEnd (c0 :: t0)); [discriminate|contradiction].
Qed.

Lemma clean_separable (x : str) : separable (cleanLatexSyntax x) = true.
Proof.
  apply separable_of.
  - intros a b E.
    pose proof (stable_no_blank_line _ a [] b 10%N 10%N (clean_stable x) E
                                     eq_refl eq_refl) as H.
    discriminate.
  - intros a E. unfold cleanLatexSyntax in E. apply trim_last in E.
    discriminate.
Qed.

Lemma separated_afterElement (l : list str) :
  afterElement (flat_map (fun e => [10; 10]%N ++ e) l).
Proof.
  destruct l as [|e l]; [left; reflexivity|].
  right. exists (e ++ flat_map (fun e' => [10; 10]%N ++ e') l). reflexivity.
Qed.

Lemma separated_injective (l : list str) :
  forall l' : list str,
    Forall (fun e => separable e = true) l ->
    Forall (fun e => separable e = true) l' ->
    flat_map (fun e => [10; 10]%N ++ e) l =
    flat_map (fun e => [10; 10]%N ++ e) l' ->
    l = l'.
Proof.
  induction l as [|e l IH]; intros [|e' l'] Hl Hl' E.
  - reflexivity.
  - discriminate.
  - discriminate.
  - cbn [flat_map app] in E. injection E as E.
    inversion Hl as [|? ? He Hl0]. inversion Hl' as [|? ? He' Hl0']. subst.
    destruct (separable_split e e' _ _ He He' (separated_afterElement l)
                              (separated_afterElement l') E) as [-> E'].
    f_equal. apply IH; assumption.
Qed.

Lemma map_double_injective (l : list str) :
  forall l' : list str,
    map doubleBackslashes l = map doubleBackslashes l' -> l = l'.
Proof.
  induction l as [|e l IH]; intros [|e' l'] E; try discriminate; auto.
  injection E as E1 E2. apply double_injective in E1. subst e'.
  f_equal. apply IH. exact E2.
Qed.

(** * Further properties, stated *)

(** X1. Every expression [extractMathExpressions] returns stands in the
    text as it is: it is a contiguous part of the input. *)
Theorem extracted_is_substring :
  forall s e : str,
    In e (extractMathExpressions s) -> exists a b : str, s = a ++ e ++ b.
Proof.
  intros s e. rewrite extract_passes, in_flat_map.
  intros (pat & Hpat & H). unfold pass in H.
  apply in_flat_map in H as (mt & Hmt & H).
  apply In_patterns in Hpat as (cv & Hcv & ->).
  apply matchAll_convention in Hmt as (inner & (a & b & -> & _) & H0 & H1).
  destruct mt as [t0 t1]. cbn [m0 m1] in H0, H1. subst t0 t1.
  rewrite pushed_delimited in H by exact Hcv. destruct H as [<-|[]].
  unfold delimitedResult.
  assert (Hwhole : exists a0 b0,
             a ++ opening cv ++ inner ++ closing cv ++ b
             = a0 ++ (opening cv ++ inner ++ closing cv) ++ b0).
  { exists a, b. rewrite <- !app_assoc. reflexivity. }
  destruct (captures cv); [destruct inner as [|c g]|]; try exact Hwhole.
  exists (a ++ opening cv), (closing cv ++ b).
  rewrite <- !app_assoc. reflexivity.
Qed.

Lemma extracted_is_substring_witness :
  exists a b : str, js "$x$ and $y$" = a ++ js "y" ++ b.
Proof.
  apply extracted_is_substring. vm_compute. right. left. reflexivity.
Defined.

(** X2. When one of the six conventions matches somewhere in the text,
    [extractMathExpressions] returns at least one expression. *)
Theorem extract_finds_convention :
  forall (cv : convention) (s : str),
    In cv conventions -> conventionMatches cv s ->
    extractMathExpressions s <> [].
Proof.
  intros cv s Hcv Hm E.
  pose proof (pass_nonempty cv s Hcv Hm) as Hne.
  destruct (pass (conventionPattern cv) s) as [|e l] eqn:Ep; [contradiction|].
  assert (Hin : In e (extractMathExpressions s)).
  { rewrite extract_passes, in_flat_map. exists (conventionPattern cv).
    split; [rewrite patterns_conventions; apply in_map; exact Hcv|].
    rewrite Ep. left. reflexivity. }
  rewrite E in Hin. exact Hin.
Qed.

Lemma extract_finds_convention_witness :
  extractMathExpressions (js "a $x$") <> [].
Proof.
  apply (extract_finds_convention (Convention (js "$") (js "$") true false)).
  - simpl. auto.
  - exists (js "x"), (js "a "), []. split; reflexivity.
Defined.

(** X3. Non-greedy matching, left to right: when the text before the
    first opening token has no code unit that starts an opening token, and
    the inner text has none that starts the closing token (and no line
    terminator, for the two single-line conventions), the pass yields the
    result of that first occurrence, then those of the text after its
    closing token. *)
Theorem pass_first_occurrence :
  forall (cv : convention) (a inner b : str),
    In cv conventions ->
    ~ In (tokenHead (opening cv)) a ->
    ~ In (tokenHead (closing cv)) inner ->
    (multiLine cv = false -> sameLine inner) ->
    pass (conventionPattern cv) (a ++ opening cv ++ inner ++ closing cv ++ b)
    = delimitedResult cv inner :: pass (conventionPattern cv) b.
Proof.
  exact pass_first_delimited.
Qed.

Lemma pass_first_occurrence_witness :
  pass dollarPattern (js "see " ++ js "$" ++ js "\alpha" ++ js "$" ++ js " and $y$")
  = js "\alpha" :: pass dollarPattern (js " and $y$").
Proof.
  apply (pass_first_occurrence (Convention (js "$") (js "$") true false)).
  - simpl. auto.
  - vm_compute. intuition discriminate.
  - vm_compute. intuition discriminate.
  - reflexivity.
Defined.

(** X4. A display block [$$...$$] is cut wrongly by the single-dollar
    pattern: whatever its content (without dollar or backslash), the result
    is the two strings ["$$"] and the content is lost. *)
Theorem display_dollar_block :
  forall x : str,
    ~ In dollar x -> ~ In backslash x ->
    extractMathExpressions (js "$$" ++ x ++ js "$$") = [js "$$"; js "$$"].
Proof.
  intros x Hd Hb.
  assert (Hbs : ~ In backslash (js "$$" ++ x ++ js "$$")).
  { intros H. apply in_app_or in H as [H|H];
      [|apply in_app_or in H as [H|H]]; try contradiction;
      vm_compute in H; intuition discriminate. }
  assert (Hdollar :
            pass (conventionPattern (Convention (js "$") (js "$") true false))
                 (js "$$" ++ x ++ js "$$") = [js "$$"; js "$$"]).
  { change (js "$$" ++ x ++ js "$$")
      with (opening (Convention (js "$") (js "$") true false) ++ [] ++
            closing (Convention (js "$") (js "$") true false) ++ x ++ js "$$").
    rewrite pass_delimited;
      [|simpl; auto|intros []|reflexivity].
    change (x ++ js "$$")
      with (x ++ opening (Convention (js "$") (js "$") true false) ++ [] ++
            closing (Convention (js "$") (js "$") true false) ++ []).
    rewrite pass_first_delimited;
      [|simpl; auto|exact Hd|intros []|reflexivity].
    reflexivity. }
  rewrite extract_passes, patterns_conventions.
  cbn [conventions map flat_map].
  rewrite Hdollar.
  rewrite !pass_none; try exact Hbs; try reflexivity; simpl; auto 10.
Qed.

Lemma display_dollar_block_witness :
  extractMathExpressions (js "$$" ++ js "E=mc^2" ++ js "$$")
  = [js "$$"; js "$$"].
Proof.
  apply display_dollar_block; vm_compute; intuition discriminate.
Defined.

(** X5. In [processFile] the trimming of [writeOutputFile] has nothing left
    to do: the text written is the cleaned expressions with their
    backslashes doubled, joined by two line feeds. *)
Theorem processFile_text :
  forall latexContent : str,
    processFile latexContent =
    joinWith [10; 10]%N
             (map (fun e => doubleBackslashes (cleanLatexSyntax e))
                  (extractMathExpressions latexContent)).
Proof.
  intros s. unfold processFile. rewrite writeOutputFile_joinWith, map_map.
  f_equal. apply map_ext. intros e.
  rewrite double_trim. unfold cleanLatexSyntax. rewrite trim_trim.
  reflexivity.
Qed.

(** X6. Doubling the backslashes and trimming commute: [writeOutputFile]
    writes for each element what doubling the backslashes of the trimmed
    element gives. *)
Theorem escape_then_trim :
  forall expr : str,
    trim (escapeBackslashes expr) = escapeBackslashes (trim expr).
Proof.
  intros e. rewrite !escape_double. apply double_trim.
Qed.

(** X7. No percent sign survives: neither a cleaned expression nor the
    text [processFile] writes holds a [%]. *)
Theorem percent_never_survives :
  forall s : str,
    ~ In percent (cleanLatexSyntax s) /\ ~ In percent (processFile s).
Proof.
  intros s. split; [apply clean_free|].
  unfold processFile. rewrite writeOutputFile_joinWith. intros H.
  apply joinWith_In in H as [H|(e & He & H)].
  - vm_compute in H. intuition discriminate.
  - apply in_map_iff in He as (e0 & <- & He0).
    apply in_map_iff in He0 as (e1 & <- & _).
    apply trim_In, double_In in H. exact (clean_free e1 H).
Qed.

Lemma percent_never_survives_witness :
  ~ In percent (cleanLatexSyntax (js "a\%b")) /\
  ~ In percent (processFile (js "$a\%b$")).
Proof.
  split.
  - apply (proj1 (percent_never_survives (js "a\%b"))).
  - apply (proj2 (percent_never_survives (js "$a\%b$"))).
Defined.

(** X8. A cleaned expression is trimmed: trimming it again changes
    nothing, and neither its first nor its last code unit is white space. *)
Theorem clean_is_trimmed :
  forall x : str,
    trim (cleanLatexSyntax x) = cleanLatexSyntax x /\
    (forall c t, cleanLatexSyntax x = c :: t -> isSpace c = false) /\
    (forall t c, cleanLatexSyntax x = t ++ [c] -> isSpace c = false).
Proof.
  intros x. unfold cleanLatexSyntax. split; [apply trim_trim|].
  split; intros; [eapply trim_first|eapply trim_last]; eassumption.
Qed.

Lemma clean_is_trimmed_witness : isSpace 120%N = false.
Proof.
  apply (proj1 (proj2 (clean_is_trimmed (js "  x=y  "))) 120%N (js "=y")).
  vm_compute. reflexivity.
Defined.

(** X9. A cleaned expression has no blank line: after a line terminator,
    a run of white space is never followed by a carriage return or a line
    feed.  In particular no line feed follows a carriage return directly. *)
Theorem clean_has_no_blank_line :
  forall (x a w b : str) (c d : char),
    cleanLatexSyntax x = a ++ c :: w ++ d :: b ->
    isLineTerminator c = true -> forallb isSpace w = true ->
    isBreak d = false.
Proof.
  intros x a w b c d E Hc Hw.
  exact (stable_no_blank_line _ a w b c d (clean_stable x) E Hc Hw).
Qed.

Lemma clean_has_no_blank_line_witness : isBreak 98%N = false.
Proof.
  apply (clean_has_no_blank_line
           (js "a" ++ [13; 10; 10]%N ++ js "b") (js "a") [] [] 13%N 98%N).
  - vm_compute. reflexivity.
  - reflexivity.
  - reflexivity.
Defined.

(** X10. An expression of white space only is cleaned to the empty
    string. *)
Theorem clean_whitespace_only :
  forall s : str, forallb isSpace s = true -> cleanLatexSyntax s = [].
Proof.
  intros s H. unfold cleanLatexSyntax, trim, trimStart.
  rewrite dropWhile_all; [reflexivity|].
  apply forallb_forall. intros c Hc.
  apply erase_In, erase_In, erase_In in Hc.
  exact (proj1 (forallb_forall _ _) H c Hc).
Qed.

Lemma clean_whitespace_only_witness :
  cleanLatexSyntax [32; 10; 9; 13; 10; 32]%N = [].
Proof.
  apply clean_whitespace_only. reflexivity.
Defined.

(** X11. Cleaning only deletes: the cleaned expression is the input with
    some code units removed, the others in their order. *)
Theorem clean_only_deletes :
  forall s : str, Subseq (cleanLatexSyntax s) s.
Proof.
  intros s. unfold cleanLatexSyntax.
  apply (Subseq_trans _ _ _ (Subseq_trim _)).
  apply (Subseq_trans _ _ _ (Subseq_erase _ _ _ _)).
  apply (Subseq_trans _ _ _ (Subseq_erase _ _ _ _)).
  apply Subseq_erase.
Qed.

(** X12. Three of the four steps of [cleanLatexSyntax] are idempotent:
    comment stripping, blank-line removal and trimming. *)
Theorem steps_idempotent :
  forall s : str,
    stripComments (stripComments s) = stripComments s /\
    removeBlankLines (removeBlankLines s) = removeBlankLines s /\
    trim (trim s) = trim s.
Proof.
  intros s. split; [|split].
  - apply stripComments_id, stripComments_free.
  - apply removeBlankLines_stable.
    apply (erase_stable (length s)). lia.
  - apply trim_trim.
Qed.

(** X13. Doubling the backslashes loses nothing: two expressions with the
    same escaped form are the same. *)
Theorem escape_injective :
  forall e1 e2 : str,
    escapeBackslashes e1 = escapeBackslashes e2 -> e1 = e2.
Proof.
  intros e1 e2. rewrite !escape_double. apply double_injective.
Qed.

Lemma escape_injective_witness : js "a\b" = js "a\b".
Proof.
  apply escape_injective. reflexivity.
Defined.

(** X14. On a text of one line (no carriage return, no line feed) without
    [%], [cleanLatexSyntax] is command removal followed by trimming. *)
Theorem clean_one_line :
  forall s : str,
    ~ In percent s ->
    forallb (fun c => negb (isBreak c)) s = true ->
    cleanLatexSyntax s = trim (removeCommands s).
Proof.
  intros s Hp Hb. unfold cleanLatexSyntax.
  rewrite (stripComments_id s Hp). f_equal.
  apply removeBlankLines_stable, stable_no_break.
  apply forallb_forall. intros c Hc. apply erase_In in Hc.
  exact (proj1 (forallb_forall _ _) Hb c Hc).
Qed.

Lemma clean_one_line_witness :
  cleanLatexSyntax (js " \frac{a}{b} \tag{1} ")
  = trim (removeCommands (js " \frac{a}{b} \tag{1} ")).
Proof.
  apply clean_one_line.
  - vm_compute. intuition discriminate.
  - reflexivity.
Defined.

(** X15. The matches of one pass do not overlap: the expressions one
    pattern yields are together no longer than the text, and all the
    expressions [extractMathExpressions] returns no longer than six times
    the text. *)
Theorem extracted_total_length :
  forall s : str,
    (forall pat : pattern,
        In pat patterns ->
        list_sum (map (@length char) (pass pat s)) <= length s) /\
    list_sum (map (@length char) (extractMathExpressions s)) <= 6 * length s.
Proof.
  intros s.
  assert (H : forall pat : pattern,
             In pat patterns ->
             list_sum (map (@length char) (pass pat s)) <= length s).
  { intros pat Hpat. apply In_patterns in Hpat as (cv & Hcv & ->).
    pose proof (hits_length (conventionPattern cv) s None 0 (Nat.le_0_l _)) as Hs.
    fold (matchAll (conventionPattern cv) s) in Hs.
    assert (Hall : forall mt, In mt (matchAll (conventionPattern cv) s) ->
                              list_sum (map (@length char) (pushed mt))
                              <= length (m0 mt)).
    { intros mt Hmt.
      apply matchAll_convention in Hmt as (inner & _ & H0 & H1).
      eapply pushed_length; eassumption. }
    unfold pass.
    pose proof (flat_map_pushed_length _ Hall) as Hl.
    rewrite Nat.add_0_r in Hs.
    exact (Nat.le_trans _ _ _ Hl Hs). }
  split; [exact H|].
  rewrite extract_passes. unfold patterns.
  cbn [flat_map]. rewrite app_nil_r, !map_app, !list_sum_app.
  replace (6 * length s)
    with (length s + (length s + (length s + (length s +
          (length s + length s))))) by lia.
  repeat apply Nat.add_le_mono; apply H; simpl; auto 10.
Qed.

Lemma extracted_total_length_witness :
  list_sum (map (@length char) (pass dollarPattern (js "$x$ and $y$")))
  <= length (js "$x$ and $y$").
Proof.
  apply (proj1 (extracted_total_length (js "$x$ and $y$"))).
  simpl. auto.
Defined.

(** X16. The text written can be split back: two non-empty lists of
    expressions whose cleaned forms give the same output text have the
    same cleaned forms.  A cleaned expression has no two line feeds in a
    row and none at its end, so the separator is found only between
    elements. *)
Theorem output_determines_cleaned :
  forall l l' : list str,
    l <> [] -> l' <> [] ->
    writeOutputFile (map cleanLatexSyntax l) =
    writeOutputFile (map cleanLatexSyntax l') ->
    map cleanLatexSyntax l = map cleanLatexSyntax l'.
Proof.
  assert (Hw : forall l : list str,
             writeOutputFile (map cleanLatexSyntax l) =
             joinWith [10; 10]%N
                      (map doubleBackslashes (map cleanLatexSyntax l))).
  { intros l. rewrite writeOutputFile_joinWith. f_equal.
    rewrite !map_map. apply map_ext. intros e.
    rewrite double_trim. unfold cleanLatexSyntax. rewrite trim_trim.
    reflexivity. }
  assert (Hs : forall l : list str,
             Forall (fun e => separable e = true)
                    (map doubleBackslashes (map cleanLatexSyntax l))).
  { intros l. rewrite map_map. apply Forall_forall. intros e He.
    apply in_map_iff in He as (x & <- & _).
    apply separable_double, clean_separable. }
  intros [|e l] [|e' l'] Hl Hl' E; try contradiction.
  rewrite !Hw in E. cbn [map] in E. rewrite !joinWith_cons in E.
  pose proof (Hs (e :: l)) as H1. pose proof (Hs (e' :: l')) as H2.
  cbn [map] in H1, H2.
  inversion H1 as [|? ? He Hl0]. inversion H2 as [|? ? He' Hl0']. subst.
  destruct (separable_split _ _ _ _ He He' (separated_afterElement _)
                            (separated_afterElement _) E) as [E1 E2].
  apply separated_injective in E2; [|assumption|assumption].
  apply double_injective in E1. apply map_double_injective in E2.
  cbn [map]. rewrite E1, E2. reflexivity.
Qed.

Lemma output_determines_cleaned_witness :
  map cleanLatexSyntax [js " x "; js "y%z"] = map cleanLatexSyntax [js "x"; js "y"].
Proof.
  apply output_determines_cleaned.
  - discriminate.
  - discriminate.
  - vm_compute. reflexivity.
Defined.

(** X17. The command line of [convertWordToLatex] puts the two file names
    between double quotes as they are: names without a double quote can be
    read back from the command. *)
Theorem pandocCommand_injective :
  forall wordFile latexFile wordFile' latexFile' : str,
    ~ In quote wordFile -> ~ In quote latexFile ->
    ~ In quote wordFile' -> ~ In quote latexFile' ->
    pandocCommand wordFile latexFile = pandocCommand wordFile' latexFile' ->
    wordFile = wordFile' /\ latexFile = latexFile'.
Proof.
  intros w l w' l' Hw Hl Hw' Hl' E. unfold pandocCommand in E.
  apply app_inv_head in E. cbn [app] in E. injection E as E.
  apply first_unique in E as [-> E]; [|assumption|assumption].
  injection E as E.
  apply first_unique in E as [-> _]; auto.
Qed.

Lemma pandocCommand_injective_witness :
  js "temp/ab12" = js "temp/ab12" /\ js "temp/q_bulk.txt" = js "temp/q_bulk.txt".
Proof.
  apply pandocCommand_injective;
    try (vm_compute; intuition discriminate); reflexivity.
Defined.
